(** * Proximal SDCA optimizer for linear models (sdca_ops.py)

    Shallow embedding of [_SparseFeatureColumn] and [_SDCAModel].  Python
    exceptions are the error branch of the [res] monad; tensor values are
    real numbers; the Python floats of the options dict are rationals, so
    the constructor's comparisons compute. *)

From Stdlib Require Import List String ZArith QArith Reals Lia Lra Bool.
Import ListNotations.
Local Set Warnings "-register-all".
Local Open Scope string_scope.

(** ** Exceptions and the error monad *)

Inductive pyexc : Type :=
| ValueError
| KeyError
| TypeError
| AttributeError
| IndexError
| InvalidArgumentError.  (** a TensorFlow runtime error *)

Inductive res (A : Type) : Type :=
| Ok (a : A)
| Err (e : pyexc).
Arguments Ok {A} a.
Arguments Err {A} e.

Definition bind {A B : Type} (m : res A) (k : A -> res B) : res B :=
  match m with Ok a => k a | Err e => Err e end.

Notation "x <- m ;; k" := (bind m (fun x => k))
  (at level 61, m at next level, right associativity).

Fixpoint mapM {A B : Type} (f : A -> res B) (xs : list A) : res (list B) :=
  match xs with
  | [] => Ok []
  | x :: xs' => y <- f x ;; ys <- mapM f xs' ;; Ok (y :: ys)
  end.

(** ** Tensors, variables and Python values *)

(** A weight variable is either one [Variable] or a list of [Variable]s
    (a [PartitionedVariable] behaves the same), partitioned on axis 0. *)
Inductive parted (A : Type) : Type :=
| Whole (a : A)
| Parted (ps : list A).
Arguments Whole {A} a.
Arguments Parted {A} ps.

Definition wvar := parted (list R).

Inductive tensor : Type :=
| TVec (xs : list R)
| TMat (rows : list (list R))
| TStrs (ss : list string).

(** [_SparseFeatureColumn] after construction: int64 example and feature
    indices, optional float32 feature values. *)
Record SparseFeatureColumn : Type := mkSparseFeatureColumn {
  _example_indices : list Z;
  _feature_indices : list Z;
  _feature_values : option (list R)
}.

Inductive pyval : Type :=
| PNone
| PStr (s : string)
| PNum (q : Q)
| PList (xs : list pyval)
| PSfc (c : SparseFeatureColumn)
| PTensor (t : tensor)
| PVar (w : list R)
| PObj.

(** A Python dict with distinct keys. *)
Definition pydict := list (string * pyval).

(** [d[k]] *)
Definition getitem (d : pydict) (k : string) : res pyval :=
  match find (fun p => String.eqb (fst p) k) d with
  | Some (_, v) => Ok v
  | None => Err KeyError
  end.

(** [d.get(k, default)] *)
Definition dict_get (d : pydict) (k : string) (default : pyval) : pyval :=
  match find (fun p => String.eqb (fst p) k) d with
  | Some (_, v) => v
  | None => default
  end.

(** [not d] for a dict *)
Definition dict_empty (d : pydict) : bool :=
  match d with [] => true | _ => false end.

(** Python's [x <= c] and [x < c] against a float constant: numbers compare,
    everything else (None, str, list, a tensor used as a bool) raises. *)
Definition py_le (v : pyval) (c : Q) : res bool :=
  match v with PNum q => Ok (Qle_bool q c) | _ => Err TypeError end.

Definition py_lt (v : pyval) (c : Q) : res bool :=
  match v with PNum q => Ok (negb (Qle_bool c q)) | _ => Err TypeError end.

Definition as_num (v : pyval) : res Q :=
  match v with PNum q => Ok q | _ => Err TypeError end.

(** ** Constructor checks of [_SDCAModel.__init__] *)

Definition supported_losses : list string :=
  ["logistic_loss"; "squared_loss"; "hinge_loss"; "smooth_hinge_loss";
   "poisson_loss"].

(** [v in supported_losses]: equality with one of the strings. *)
Definition in_supported_losses (v : pyval) : bool :=
  match v with
  | PStr s => existsb (String.eqb s) supported_losses
  | _ => false
  end.

(** [_assert_specified]: the message [check_in[x] + ' must be specified.']
    is evaluated with [check_in[x]] equal to None, which raises TypeError
    before the ValueError is built. *)
Fixpoint _assert_specified (items : list string) (check_in : pydict)
  : res unit :=
  match items with
  | [] => Ok tt
  | x :: xs =>
      v <- getitem check_in x ;;
      match v with
      | PNone => Err TypeError
      | _ => _assert_specified xs check_in
      end
  end.

Fixpoint _assert_list (items : list string) (check_in : pydict) : res unit :=
  match items with
  | [] => Ok tt
  | x :: xs =>
      v <- getitem check_in x ;;
      match v with
      | PList _ => _assert_list xs check_in
      | _ => Err ValueError
      end
  end.

Definition check_specified_all (examples variables : pydict) : res unit :=
  _ <- _assert_specified
         ["example_labels"; "example_weights"; "example_ids";
          "sparse_features"; "dense_features"] examples ;;
  _ <- _assert_list ["sparse_features"; "dense_features"] examples ;;
  _ <- _assert_specified
         ["sparse_features_weights"; "dense_features_weights"] variables ;;
  _assert_list ["sparse_features_weights"; "dense_features_weights"]
    variables.

Definition check_nonempty (examples variables options : pydict) : res unit :=
  if dict_empty examples || dict_empty variables || dict_empty options
  then Err ValueError else Ok tt.

Definition check_loss_type (options : pydict) : res unit :=
  lt <- getitem options "loss_type" ;;
  if in_supported_losses lt then Ok tt else Err ValueError.

Definition check_regularization (options : pydict) : res unit :=
  _ <- _assert_specified
         ["loss_type"; "symmetric_l2_regularization";
          "symmetric_l1_regularization"] options ;;
  l2 <- getitem options "symmetric_l2_regularization" ;;
  b2 <- py_le l2 0 ;;
  if b2 then Err ValueError else
  (* the [<= 1.0] comparison only logs a warning *)
  _ <- py_le l2 1 ;;
  l1 <- getitem options "symmetric_l1_regularization" ;;
  b1 <- py_lt l1 0 ;;
  if b1 then Err ValueError else Ok tt.

(** All checks of [__init__], in source order. *)
Definition init_checks (examples variables options : pydict) : res unit :=
  _ <- check_nonempty examples variables options ;;
  _ <- check_loss_type options ;;
  _ <- check_specified_all examples variables ;;
  check_regularization options.

(** ** [_SparseFeatureColumn] *)

Section SparseFeatureColumnClass.
(** Python inputs (lists, numpy arrays or tensors) and TensorFlow's
    [internal_convert_to_tensor] to int64 and to float32. *)
Variable Src : Type.
Variable convert_int64 : Src -> res (list Z).
Variable convert_float32 : Src -> res (list R).

(** [_SparseFeatureColumn.__init__] *)
Definition SparseFeatureColumn_init (example_indices feature_indices : Src)
    (feature_values : option Src) : res SparseFeatureColumn :=
  ei <- convert_int64 example_indices ;;
  fi <- convert_int64 feature_indices ;;
  fv <- match feature_values with
        | None => Ok None
        | Some v => x <- convert_float32 v ;; Ok (Some x)
        end ;;
  Ok (mkSparseFeatureColumn ei fi fv).
End SparseFeatureColumnClass.

(** The properties. *)
Definition example_indices (c : SparseFeatureColumn) : list Z :=
  _example_indices c.
Definition feature_indices (c : SparseFeatureColumn) : list Z :=
  _feature_indices c.
Definition feature_values (c : SparseFeatureColumn) : option (list R) :=
  _feature_values c.

(** The operations of the class after construction, as calls on an object. *)
Inductive sfc_method : Type :=
| Call_example_indices
| Call_feature_indices
| Call_feature_values.

Inductive sfc_result : Type :=
| RIndices (xs : list Z)
| RValues (v : option (list R)).

Definition sfc_call (c : SparseFeatureColumn) (mth : sfc_method)
  : SparseFeatureColumn * sfc_result :=
  match mth with
  | Call_example_indices => (c, RIndices (example_indices c))
  | Call_feature_indices => (c, RIndices (feature_indices c))
  | Call_feature_values => (c, RValues (feature_values c))
  end.

Fixpoint sfc_run (c : SparseFeatureColumn) (ms : list sfc_method)
  : SparseFeatureColumn * list sfc_result :=
  match ms with
  | [] => (c, [])
  | mth :: ms' =>
      let (c1, r) := sfc_call c mth in
      let (c2, rs) := sfc_run c1 ms' in
      (c2, r :: rs)
  end.

(** ** Tensor primitives *)

(** [tf.cast(x, tf.int32)] on an int64: two's-complement wrap to 32 bits. *)
Definition cast_int32 (z : Z) : Z := ((z + 2 ^ 31) mod 2 ^ 32 - 2 ^ 31)%Z.

(** [tf.compat.v1.assign_add(global_step, 1)] on the int64 [global_step]
    variable (the dtype [tf.compat.v1.train.get_or_create_global_step]
    gives it): two's-complement wrap to 64 bits. *)
Definition wrap_int64 (z : Z) : Z := ((z + 2 ^ 63) mod 2 ^ 64 - 2 ^ 63)%Z.

(** [tf.unique(x)[0]]: the distinct values in order of first occurrence. *)
Fixpoint unique_from (seen : list Z) (xs : list Z) : list Z :=
  match xs with
  | [] => []
  | x :: xs' =>
      if existsb (Z.eqb x) seen then unique_from seen xs'
      else x :: unique_from (x :: seen) xs'
  end.

Definition tf_unique (xs : list Z) : list Z := unique_from [] xs.

(** [tf.gather(params, ids)] on axis 0; an id out of range raises. *)
Definition gather_one {A : Type} (params : list A) (i : Z) : res A :=
  if (0 <=? i)%Z then
    match nth_error params (Z.to_nat i) with
    | Some x => Ok x
    | None => Err InvalidArgumentError
    end
  else Err InvalidArgumentError.

Definition gather {A : Type} (params : list A) (ids : list Z) : res (list A) :=
  mapM (gather_one params) ids.

(** [x // y] and [x % y] on int64 tensors: floor division and modulo; an
    integer division by zero raises. *)
Definition floordiv (a b : Z) : res Z :=
  if Z.eqb b 0 then Err InvalidArgumentError else Ok (a / b)%Z.

Definition floormod (a b : Z) : res Z :=
  if Z.eqb b 0 then Err InvalidArgumentError else Ok (a mod b)%Z.

(** [tf.dynamic_partition(data, partitions, n)]: partition [q] holds the
    elements whose partition is [q], in order. *)
Definition partition_of {A : Type} (data : list A) (partitions : list Z)
    (q : nat) : list A :=
  map fst (filter (fun dp => Z.eqb (snd dp) (Z.of_nat q))
                  (combine data partitions)).

Definition dynamic_partition {A : Type} (data : list A) (partitions : list Z)
    (n : nat) : res (list (list A)) :=
  if Nat.eqb (List.length data) (List.length partitions) &&
     forallb (fun p => (0 <=? p) && (p <? Z.of_nat n))%Z partitions
  then Ok (map (partition_of data partitions) (seq 0 n))
  else Err InvalidArgumentError.

Fixpoint set_nth {A : Type} (xs : list A) (n : nat) (x : A) : list A :=
  match xs, n with
  | [], _ => []
  | _ :: r, O => x :: r
  | y :: r, S n' => y :: set_nth r n' x
  end.

Definition stitch_write {A : Type} (out : list (option A)) (ix : Z * A)
  : list (option A) :=
  set_nth out (Z.to_nat (fst ix)) (Some (snd ix)).

Definition stitch_size {A : Type} (pairs : list (Z * A)) : nat :=
  match pairs with
  | [] => O
  | _ => S (list_max (map (fun p => Z.to_nat (fst p)) pairs))
  end.

(** [tf.dynamic_stitch(indices, data)]: [merged[indices[m][i]] = data[m][i]]
    written in order; the output has [max index + 1] rows, and a row that
    no index names has no specified value ([None]). *)
Definition dynamic_stitch {A : Type} (indices : list (list Z))
    (data : list (list A)) : res (list (option A)) :=
  if Nat.eqb (List.length indices) (List.length data) &&
     forallb (fun p => Nat.eqb (List.length (fst p)) (List.length (snd p)))
       (combine indices data) &&
     forallb (fun i => 0 <=? i)%Z (List.concat indices)
  then
    let pairs := List.concat (map (fun p => combine (fst p) (snd p))
                             (combine indices data)) in
    Ok (fold_left stitch_write pairs (repeat None (stitch_size pairs)))
  else Err InvalidArgumentError.

(** ** Div partitioning of a partitioned sparse weight (in [minimize]) *)

Record routing : Type := mkRouting {
  num_partitions : nat;
  p_assignments : list Z;
  gather_ids : list (list Z);
  new_ids : list Z
}.

Definition dim_0_size (w : list (list R)) : nat :=
  fold_right (fun wp acc => (List.length wp + acc)%nat) O w.

(** Partition assignments, ids inside the partitions, and the ids split by
    partition.  [w[0]] on an empty list of partitions raises. *)
Definition div_routing (w : list (list R)) (flat_ids : list Z) : res routing :=
  match w with
  | [] => Err IndexError
  | _ =>
    let num_parts := List.length w in
    let num_total_ids := Z.of_nat (dim_0_size w) in
    let ids_per_partition := (num_total_ids / Z.of_nat num_parts)%Z in
    let extras := (num_total_ids mod Z.of_nat num_parts)%Z in
    a <- mapM (fun i => x <- floordiv i (ids_per_partition + 1) ;;
                        y <- floordiv (i - extras) ids_per_partition ;;
                        Ok (Z.max x y)) flat_ids ;;
    n1 <- mapM (fun i => floormod i (ids_per_partition + 1)) flat_ids ;;
    n2 <- mapM (fun i => floormod (i - extras) ids_per_partition) flat_ids ;;
    (* tf.where(p_assignments < extras, n1, n2) *)
    let nw := map (fun t => match t with
                            | (p, (x, y)) => if (p <? extras)%Z then x else y
                            end) (combine a (combine n1 n2)) in
    let a32 := map cast_int32 a in
    g <- dynamic_partition nw a32 num_parts ;;
    Ok (mkRouting num_parts a32 g nw)
  end.

Fixpoint gather_parts (w : list (list R)) (g : list (list Z))
  : res (list (list R)) :=
  match w, g with
  | wp :: w', ids :: g' =>
      x <- gather wp ids ;; xs <- gather_parts w' g' ;; Ok (x :: xs)
  | _, _ => Ok []
  end.

(** Gather from each partition, then stitch back in the original order. *)
Definition partitioned_gather (w : list (list R)) (r : routing)
  : res (list (option R)) :=
  pgw <- gather_parts w (gather_ids r) ;;
  cond <- dynamic_partition
            (map Z.of_nat (seq 0 (List.length (new_ids r))))
            (p_assignments r) (num_partitions r) ;;
  dynamic_stitch cond pgw.

(** Div layout, as TensorFlow's fixed-size partitioners produce it: with
    [n] rows over [p] partitions, the first [n mod p] partitions hold
    [n / p + 1] rows and the others [n / p]. *)
Definition div_layout (w : list (list R)) : Prop :=
  let n := Z.of_nat (dim_0_size w) in
  let p := Z.of_nat (List.length w) in
  forall q, (q < List.length w)%nat ->
    Z.of_nat (List.length (nth q w [])) =
    (if (Z.of_nat q <? n mod p)%Z then n / p + 1 else n / p)%Z.

(** The partition and the row [div_routing] computes for an id. *)
Definition ids_per_partition_of (w : list (list R)) : Z :=
  (Z.of_nat (dim_0_size w) / Z.of_nat (List.length w))%Z.

Definition extras_of (w : list (list R)) : Z :=
  (Z.of_nat (dim_0_size w) mod Z.of_nat (List.length w))%Z.

Definition route_partition (ipp extras i : Z) : Z :=
  Z.max (i / (ipp + 1)) ((i - extras) / ipp).

Definition route_row (ipp extras i : Z) : Z :=
  if (route_partition ipp extras i <? extras)%Z then (i mod (ipp + 1))%Z
  else ((i - extras) mod ipp)%Z.

(** [sparse_idx] of [minimize]: unique ids, through an int32 cast. *)
Definition sparse_idx_of (feature_indices : list Z) : list Z :=
  tf_unique (map cast_int32 feature_indices).

(** ** Sharded dual-state store *)

(** Modelled from the spec: [_ShardedMutableDenseHashTable]
    (sharded_mutable_dense_hashtable.py, not among the sources) is a
    key-value table mapping a hashed example id to a 4-tuple (dual variable,
    primal loss, dual loss, example weight), sharded for parallel access.
    Sharding only spreads keys over shards, so one table models all shards;
    absent keys read the default value; [insert] writes its rows in order. *)
Definition key := (Z * Z)%type.
Definition dual_state := (R * R * R * R)%type.

Definition key_eqb (a b : key) : bool :=
  Z.eqb (fst a) (fst b) && Z.eqb (snd a) (snd b).

Record table : Type := mkTable {
  tbl_default : dual_state;
  tbl_entries : list (key * dual_state)  (** newest first *)
}.

Definition table_new (default : dual_state) : table := mkTable default [].

Definition table_lookup1 (t : table) (k : key) : dual_state :=
  match find (fun p => key_eqb (fst p) k) (tbl_entries t) with
  | Some (_, v) => v
  | None => tbl_default t
  end.

Definition table_lookup (t : table) (ks : list key) : list dual_state :=
  map (table_lookup1 t) ks.

Definition table_put (t : table) (kv : key * dual_state) : table :=
  mkTable (tbl_default t) (kv :: tbl_entries t).

Definition table_insert (t : table) (ks : list key) (vs : list dual_state)
  : res table :=
  if Nat.eqb (List.length ks) (List.length vs)
  then Ok (fold_left table_put (combine ks vs) t)
  else Err InvalidArgumentError.

(** Values of the live keys (an entry not shadowed by a newer one). *)
Fixpoint live_values (seen : list key) (es : list (key * dual_state))
  : list dual_state :=
  match es with
  | [] => []
  | (k, v) :: es' =>
      if existsb (key_eqb k) seen then live_values seen es'
      else v :: live_values (k :: seen) es'
  end.

Definition table_export (t : table) : list dual_state :=
  live_values [] (tbl_entries t).

(** ** The model *)

(** The model keeps [examples] and [options] as given, the values of the
    user-provided weight variables, the unshrunk slots and the table.
    [loss_type], [l1] and [l2] are the option values the constructor
    validated. *)
Record model : Type := mkModel {
  m_examples : pydict;
  m_options : pydict;
  m_loss_type : string;
  m_l1 : Q;
  m_l2 : Q;
  m_sparse_w : list wvar;     (** variables['sparse_features_weights'] *)
  m_dense_w : list wvar;      (** variables['dense_features_weights'] *)
  m_slot_sparse : list wvar;  (** slots['unshrunk_sparse_features_weights'] *)
  m_slot_dense : list wvar;   (** slots['unshrunk_dense_features_weights'] *)
  m_table : table
}.

Definition _symmetric_l1_regularization (m : model) : R := Q2R (m_l1 m).
Definition _symmetric_l2_regularization (m : model) : R := Q2R (m_l2 m).

(** [_var_to_list] *)
Definition _var_to_list {A : Type} (v : parted A) : list A :=
  match v with Whole a => [a] | Parted ps => ps end.

(** A primary variable: one [Variable] or a list of them. *)
Definition decode_var (v : pyval) : res wvar :=
  match v with
  | PVar w => Ok (Whole w)
  | PList vs =>
      ws <- mapM (fun x => match x with
                           | PVar w => Ok w
                           | _ => Err AttributeError
                           end) vs ;;
      Ok (Parted ws)
  | _ => Err AttributeError
  end.

Definition as_list (v : pyval) : res (list pyval) :=
  match v with PList xs => Ok xs | _ => Err TypeError end.

Definition as_str (v : pyval) : res string :=
  match v with PStr s => Ok s | _ => Err TypeError end.

Definition zeros_like (w : list R) : list R := map (fun _ => 0%R) w.

(** One slot per primary variable, zero-initialised, same partitioning. *)
Definition slot_of (v : wvar) : wvar :=
  match v with
  | Whole w => Whole (zeros_like w)
  | Parted ps => Parted (map zeros_like ps)
  end.

Definition reduce_sum (xs : list R) : R := fold_right Rplus 0%R xs.

(** [tf.math.add_n] refuses an empty list. *)
Definition add_n (xs : list R) : res R :=
  match xs with
  | [] => Err ValueError
  | x :: rest => Ok (fold_left Rplus rest x)
  end.

Definition all_partitions (m : model) : list (list R) :=
  flat_map _var_to_list (m_sparse_w m ++ m_dense_w m).

Definition _l1_loss (m : model) : res R :=
  s <- add_n (map (fun w => reduce_sum (map Rabs w)) (all_partitions m)) ;;
  Ok (_symmetric_l1_regularization m * s)%R.

Definition _l2_loss (m : model) : res R :=
  s <- add_n (map (fun w => reduce_sum (map (fun x => (x * x)%R) w))
                  (all_partitions m)) ;;
  Ok (_symmetric_l2_regularization m * s / 2)%R.

Definition ds_add (a b : dual_state) : dual_state :=
  match a, b with
  | (a0, a1, a2, a3), (b0, b1, b2, b3) =>
      (a0 + b0, a1 + b1, a2 + b2, a3 + b3)%R
  end.

Definition approximate_duality_gap (m : model) : res R :=
  let summed := fold_right ds_add (0, 0, 0, 0)%R (table_export (m_table m)) in
  match summed with
  | (_, primal_loss, dual_loss, example_weights) =>
      l1 <- _l1_loss m ;;
      l2 <- _l2_loss m ;;
      Ok ((primal_loss + dual_loss + l1 + 2 * l2) / example_weights)%R
  end.

(** [_SDCAModel.__init__]: checks, [_create_slots], the table with default
    [0, 0, 0, 0], and the [approximate_duality_gap] summary. *)
Definition SDCAModel_init (examples variables options : pydict) : res model :=
  _ <- init_checks examples variables options ;;
  lt <- getitem options "loss_type" ;;
  loss_type <- as_str lt ;;
  l1v <- getitem options "symmetric_l1_regularization" ;;
  l1 <- as_num l1v ;;
  l2v <- getitem options "symmetric_l2_regularization" ;;
  l2 <- as_num l2v ;;
  sv <- getitem variables "sparse_features_weights" ;;
  svs <- as_list sv ;;
  sws <- mapM decode_var svs ;;
  dv <- getitem variables "dense_features_weights" ;;
  dvs <- as_list dv ;;
  dws <- mapM decode_var dvs ;;
  let m := mkModel examples options loss_type l1 l2 sws dws
             (map slot_of sws) (map slot_of dws)
             (table_new (0, 0, 0, 0)%R) in
  _ <- approximate_duality_gap m ;;
  Ok m.

(** ** Helpers shared by the graph-building methods *)

Fixpoint foldM {A B : Type} (f : A -> B -> res A) (xs : list B) (a : A)
  : res A :=
  match xs with
  | [] => Ok a
  | x :: xs' => a' <- f a x ;; foldM f xs' a'
  end.

(** [for w, u in zip(ws, us): ...update w with u...]: Python's [zip] stops at
    the shorter list, the remaining [ws] are left as they are. *)
Fixpoint update_zip {A B : Type} (f : A -> B -> res A) (ws : list A)
    (us : list B) : res (list A) :=
  match ws, us with
  | w :: ws', u :: us' => w' <- f w u ;; r <- update_zip f ws' us' ;; Ok (w' :: r)
  | _, _ => Ok ws
  end.

Definition as_sfc (v : pyval) : res SparseFeatureColumn :=
  match v with PSfc c => Ok c | _ => Err AttributeError end.

Definition as_strs (v : pyval) : res (list string) :=
  match v with PTensor (TStrs ss) => Ok ss | _ => Err TypeError end.

Definition as_vec (v : pyval) : res (list R) :=
  match v with PTensor (TVec xs) => Ok xs | _ => Err TypeError end.

(** One entry of [_convert_n_to_tensor] for dense features: a matrix, or a
    list of matrices concatenated on axis 0. *)
Definition as_mat (v : pyval) : res (list (list R)) :=
  match v with
  | PTensor (TMat rows) => Ok rows
  | PList xs =>
      rs <- mapM (fun x => match x with
                           | PTensor (TMat rows) => Ok rows
                           | _ => Err TypeError
                           end) xs ;;
      Ok (List.concat rs)
  | _ => Err TypeError
  end.

(** One entry of [_convert_n_to_tensor] for a variable: the partitions
    concatenated on axis 0. *)
Definition concat_var (v : wvar) : list R := List.concat (_var_to_list v).

Definition map_var (f : list R -> list R) (v : wvar) : wvar :=
  match v with
  | Whole w => Whole (f w)
  | Parted ps => Parted (map f ps)
  end.

Definition var_shape (v : wvar) : parted nat :=
  match v with
  | Whole w => Whole (List.length w)
  | Parted ps => Parted (map (@List.length R) ps)
  end.

(** An element-wise binary op ([tf.math.multiply], [+], ...) on two
    vectors, with TensorFlow's broadcasting: equal lengths pair up, a
    length-1 operand is repeated along the other, any other pair of
    lengths raises. *)
Definition tf_binop (f : R -> R -> R) (a b : list R) : res (list R) :=
  if Nat.eqb (List.length a) (List.length b)
  then Ok (map (fun p => f (fst p) (snd p)) (combine a b))
  else match a, b with
       | [x], _ => Ok (map (fun y => f x y) b)
       | _, [y] => Ok (map (fun x => f x y) a)
       | _, _ => Err InvalidArgumentError
       end.

(** [targets.get_shape().assert_is_compatible_with(log_input.get_shape())]
    in [sigmoid_cross_entropy_with_logits] and [log_poisson_loss]: two
    vectors of different lengths raise ValueError while the graph is
    built. *)
Definition assert_compatible (a b : list R) : res unit :=
  if Nat.eqb (List.length a) (List.length b) then Ok tt else Err ValueError.

(** [tf.compat.v1.scatter_add(ref, indices, updates)]: [ref[indices[j]] +=
    updates[j]] for every [j], duplicates accumulating; an index out of
    range raises. *)
Definition scatter_add1 (w : list R) (iu : Z * R) : res (list R) :=
  let k := Z.to_nat (fst iu) in
  if (0 <=? fst iu)%Z && Nat.ltb k (List.length w)
  then Ok (set_nth w k (nth k w 0%R + snd iu)%R)
  else Err InvalidArgumentError.

Definition scatter_add (w : list R) (ids : list Z) (u : list R)
  : res (list R) :=
  if Nat.eqb (List.length ids) (List.length u)
  then foldM scatter_add1 (combine ids u) w
  else Err InvalidArgumentError.

(** [tf.compat.v1.assign_add(ref, value)]: the value must have the
    variable's shape (no broadcasting). *)
Definition assign_add (w u : list R) : res (list R) :=
  if Nat.eqb (List.length w) (List.length u)
  then Ok (map (fun p => (fst p + snd p)%R) (combine w u))
  else Err InvalidArgumentError.

(** [v.assign(value)] *)
Definition assign (v sv : list R) : res (list R) :=
  if Nat.eqb (List.length v) (List.length sv) then Ok sv
  else Err InvalidArgumentError.

(** [tf.split(u, num_or_size_splits=sizes)] on axis 0. *)
Fixpoint split_sizes (u : list R) (sizes : list nat) : list (list R) :=
  match sizes with
  | [] => []
  | s :: ss => firstn s u :: split_sizes (skipn s u) ss
  end.

Definition tf_split (u : list R) (sizes : list nat) : res (list (list R)) :=
  if Nat.eqb (list_sum sizes) (List.length u) then Ok (split_sizes u sizes)
  else Err InvalidArgumentError.

(** ** [minimize] *)

(** The gathered current weights of one sparse slot: its [sparse_idx], the
    routing of a partitioned slot, and [batch_gathered_weights]. *)
Record var_gather : Type := mkVarGather {
  vg_sparse_idx : list Z;
  vg_routing : option routing;
  vg_weights : list (option R)
}.

Definition sparse_gather (w : wvar) (i : list Z) : res var_gather :=
  let sparse_idx := sparse_idx_of i in
  match w with
  | Parted ps =>
      r <- div_routing ps sparse_idx ;;
      g <- partitioned_gather ps r ;;
      Ok (mkVarGather sparse_idx (Some r) g)
  | Whole wv =>
      g <- gather wv sparse_idx ;;
      Ok (mkVarGather sparse_idx None (map Some g))
  end.

(** [_get_partitioned_update_ops] *)
Definition partitioned_scatter_add (ps : list (list R)) (r : routing)
    (full_update : list R) : res (list (list R)) :=
  updates <- dynamic_partition full_update (p_assignments r)
               (num_partitions r) ;;
  mapM (fun t => match t with
                 | (wp, (ids, up)) => scatter_add wp ids up
                 end) (combine ps (combine (gather_ids r) updates)).

(** The update of one sparse slot; a partitioned slot without routing would
    miss its entry of [num_partitions_by_var] (KeyError). *)
Definition sparse_update (w : wvar) (gu : var_gather * list R) : res wvar :=
  match w with
  | Parted ps =>
      match vg_routing (fst gu) with
      | Some r => ps' <- partitioned_scatter_add ps r (snd gu) ;; Ok (Parted ps')
      | None => Err KeyError
      end
  | Whole wv => wv' <- scatter_add wv (vg_sparse_idx (fst gu)) (snd gu) ;;
                Ok (Whole wv')
  end.

(** The update of one dense slot. *)
Definition dense_update (w : wvar) (u : list R) : res wvar :=
  match w with
  | Parted ps =>
      us <- tf_split u (map (@List.length R) ps) ;;
      ps' <- mapM (fun p => assign_add (fst p) (snd p)) (combine ps us) ;;
      Ok (Parted ps')
  | Whole wv => wv' <- assign_add wv u ;; Ok (Whole wv')
  end.

(** The arguments of [sdca_optimizer_v2]. *)
Record op_inputs : Type := mkOpInputs {
  op_sparse_example_indices : list (list Z);
  op_sparse_feature_indices : list (list Z);
  op_sparse_feature_values : list (list R);
  op_dense_features : list (list (list R));
  op_example_weights : list R;
  op_example_labels : list R;
  op_sparse_indices : list (list Z);
  op_sparse_weights : list (list (option R));
  op_dense_weights : list (list R);
  op_example_state_data : list dual_state;
  op_loss_type : string;
  op_l1 : R;
  op_l2 : R;
  op_num_loss_partitions : pyval;
  op_adaptive : pyval
}.

(** [esu, sfw, dfw] *)
Record op_outputs : Type := mkOpOutputs {
  out_esu : list dual_state;
  out_sfw : list (list R);
  out_dfw : list (list R)
}.

(** The hashed example ids, the op's arguments and the per-slot gathers. *)
Record prepared : Type := mkPrepared {
  pr_hashed : list key;
  pr_inputs : op_inputs;
  pr_gathers : list var_gather
}.

(** [self.__dict__] with new weight variables, new slots or a new table. *)
Definition set_vars (m : model) (sw dw : list wvar) : model :=
  mkModel (m_examples m) (m_options m) (m_loss_type m) (m_l1 m) (m_l2 m)
    sw dw (m_slot_sparse m) (m_slot_dense m) (m_table m).

Definition set_slots_table (m : model) (ss ds : list wvar) (t : table)
  : model :=
  mkModel (m_examples m) (m_options m) (m_loss_type m) (m_l1 m) (m_l2 m)
    (m_sparse_w m) (m_dense_w m) ss ds t.

Section Minimize.
(** The native ops: [sdca_fprint] on one example id, and one pass of
    [sdca_optimizer_v2] (num_inner_iterations = 1). *)
Variable sdca_fprint : string -> key.
Variable sdca_optimizer : op_inputs -> res op_outputs.

(** [minimize] up to the call of the op.  [True], the default of
    [adaptive], is the number 1 in Python. *)
Definition minimize_inputs (m : model) : res prepared :=
  let ex := m_examples m in
  sfv <- getitem ex "sparse_features" ;;
  sfl <- as_list sfv ;;
  sfs <- mapM as_sfc sfl ;;
  let sparse_example_indices := map example_indices sfs in
  let sparse_feature_indices := map feature_indices sfs in
  (* If feature values are missing, sdca assumes a value of 1.0f. *)
  let sparse_features_values :=
    flat_map (fun sf => match feature_values sf with
                        | Some v => [v]
                        | None => []
                        end) sfs in
  idv <- getitem ex "example_ids" ;;
  ids <- as_strs idv ;;
  let example_ids_hashed := map sdca_fprint ids in
  let example_state_data := table_lookup (m_table m) example_ids_hashed in
  gs <- mapM (fun p => sparse_gather (fst p) (snd p))
              (combine (m_slot_sparse m) sparse_feature_indices) ;;
  dfv <- getitem ex "dense_features" ;;
  dfl <- as_list dfv ;;
  dense_features <- mapM as_mat dfl ;;
  wv <- getitem ex "example_weights" ;;
  example_weights <- as_vec wv ;;
  lv <- getitem ex "example_labels" ;;
  example_labels <- as_vec lv ;;
  Ok (mkPrepared example_ids_hashed
        (mkOpInputs sparse_example_indices sparse_feature_indices
           sparse_features_values dense_features example_weights
           example_labels (map vg_sparse_idx gs) (map vg_weights gs)
           (map concat_var (m_slot_dense m)) example_state_data
           (m_loss_type m) (_symmetric_l1_regularization m)
           (_symmetric_l2_regularization m)
           (dict_get (m_options m) "num_loss_partitions" (PNum 1))
           (dict_get (m_options m) "adaptive" (PNum 1)))
        gs).

(** [minimize(global_step)]: the new model and the new value of the
    optional [global_step] variable. *)
Definition minimize (m : model) (global_step : option Z)
  : res (model * option Z) :=
  pr <- minimize_inputs m ;;
  out <- sdca_optimizer (pr_inputs pr) ;;
  tbl <- table_insert (m_table m) (pr_hashed pr) (out_esu out) ;;
  ss <- update_zip sparse_update (m_slot_sparse m)
          (combine (pr_gathers pr) (out_sfw out)) ;;
  ds <- update_zip dense_update (m_slot_dense m) (out_dfw out) ;;
  Ok (set_slots_table m ss ds tbl,
      option_map (fun g => wrap_int64 (g + 1)) global_step).
End Minimize.

(** ** [update_weights] *)

(** [tf.math.sign] *)
Definition tf_sign (x : R) : R :=
  if Rlt_dec 0 x then 1%R else if Rlt_dec x 0 then (-1)%R else 0%R.

Definition shrink (shrinkage v : R) : R :=
  (tf_sign v * Rmax 0 (Rabs v - shrinkage))%R.

(** A variable after the [assign]s of its partitions. *)
Definition with_parts (var : wvar) (xs : list (list R)) : wvar :=
  match var with
  | Whole v => match xs with [x] => Whole x | _ => Whole v end
  | Parted _ => Parted xs
  end.

Definition assign_var (var slot_var : wvar) : res wvar :=
  xs <- update_zip assign (_var_to_list var) (_var_to_list slot_var) ;;
  Ok (with_parts var xs).

(** [update_weights(train_op)]: running it runs [train_op] first (control
    dependency), then the copies, then the proximal step when l1 > 0. *)
Definition update_weights {X : Type} (train_op : model -> res (model * X))
    (m : model) : res (model * X) :=
  t <- train_op m ;;
  match t with
  | (m1, x) =>
      sw <- update_zip assign_var (m_sparse_w m1) (m_slot_sparse m1) ;;
      dw <- update_zip assign_var (m_dense_w m1) (m_slot_dense m1) ;;
      if negb (Qle_bool (m_l1 m) 0) then
        let shrinkage :=
          (_symmetric_l1_regularization m / _symmetric_l2_regularization m)%R in
        Ok (set_vars m1 (map (map_var (map (shrink shrinkage))) sw)
                        (map (map_var (map (shrink shrinkage))) dw), x)
      else Ok (set_vars m1 sw dw, x)
  end.

(** ** Predictions and losses *)

Definition dot (a b : list R) : R :=
  reduce_sum (map (fun p => (fst p * snd p)%R) (combine a b)).

(** [squeeze(matmul(x, expand_dims(v, -1)))] *)
Definition matvec (rows : list (list R)) (v : list R) : res (list R) :=
  if forallb (fun r => Nat.eqb (List.length r) (List.length v)) rows
  then Ok (map (fun r => dot r v) rows)
  else Err InvalidArgumentError.

Fixpoint sorted_from (prev : Z) (ids : list Z) : bool :=
  match ids with
  | [] => true
  | i :: r => (prev <=? i)%Z && sorted_from i r
  end.

(** [tf.math.segment_sum(data, segment_ids)]: the ids are sorted and
    non-negative, the output has [last id + 1] rows, a row without ids is 0. *)
Definition segment_sum (data : list R) (segment_ids : list Z)
  : res (list R) :=
  if Nat.eqb (List.length data) (List.length segment_ids) &&
     sorted_from 0 segment_ids
  then
    let n := match segment_ids with
             | [] => O
             | _ => S (Z.to_nat (last segment_ids 0%Z))
             end in
    Ok (map (fun k => reduce_sum
                        (map fst (filter (fun p => Z.eqb (snd p) (Z.of_nat k))
                                         (combine data segment_ids))))
            (seq 0 n))
  else Err InvalidArgumentError.

(** [tf.compat.v1.pad(x, [[0, n - len(x)]])] *)
Definition pad_to (xs : list R) (n : nat) : res (list R) :=
  if Nat.leb (List.length xs) n
  then Ok (app xs (repeat 0%R (n - List.length xs)))
  else Err InvalidArgumentError.

Definition nth_res {A : Type} (xs : list A) (i : nat) : res A :=
  match nth_error xs i with Some x => Ok x | None => Err IndexError end.

(** One sparse feature column in [_linear_predictions].  [tf.multiply] with
    [None] fails while the graph is built, before anything runs. *)
Definition sparse_dot (batch_size : nat) (predictions : list R)
    (sc : pyval * list R) : res (list R) :=
  match sc with
  | (sfv, sv) =>
      sfc <- as_sfc sfv ;;
      match feature_values sfc with
      | None => Err ValueError
      | Some fv =>
          g <- gather sv (feature_indices sfc) ;;
          x <- tf_binop Rmult g fv ;;
          unpadded_dot_product <- segment_sum x (example_indices sfc) ;;
          padded <- pad_to unpadded_dot_product batch_size ;;
          tf_binop Rplus predictions padded
      end
  end.

(** [_linear_predictions] as the value the session computes.  The
    outcome [Ok] is exact; an error is the first one met in statement
    order, so when an op that fails at run time (InvalidArgumentError)
    precedes a statement that raises while the graph is built, the
    program raises the latter and the model reports the former. *)
Definition _linear_predictions (m : model) (examples : pydict)
  : res (list R) :=
  idv <- getitem examples "example_ids" ;;
  ids <- as_strs idv ;;
  let batch_size := List.length ids in
  let predictions := repeat 0%R batch_size in
  let sparse_variables := map concat_var (m_sparse_w m) in
  sfv <- getitem examples "sparse_features" ;;
  sfl <- as_list sfv ;;
  predictions <- foldM (sparse_dot batch_size) (combine sfl sparse_variables)
                   predictions ;;
  dfv <- getitem examples "dense_features" ;;
  dfl <- as_list dfv ;;
  dense_features <- mapM as_mat dfl ;;
  let dense_variables := map concat_var (m_dense_w m) in
  foldM (fun predictions i =>
           df <- nth_res dense_features i ;;
           mv <- matvec df (nth i dense_variables []) ;;
           tf_binop Rplus predictions mv)
        (seq 0 (List.length dense_variables)) predictions.

(** [tf.math.sigmoid] over the reals; float32 rounding is not modelled. *)
Definition sigmoid (x : R) : R := (1 / (1 + exp (- x)))%R.

Definition predictions (m : model) (examples : pydict) : res (list R) :=
  _ <- _assert_specified
         ["example_weights"; "sparse_features"; "dense_features"] examples ;;
  _ <- _assert_list ["sparse_features"; "dense_features"] examples ;;
  result <- _linear_predictions m examples ;;
  if String.eqb (m_loss_type m) "logistic_loss" then Ok (map sigmoid result)
  else if String.eqb (m_loss_type m) "poisson_loss" then Ok (map exp result)
  else Ok result.

(** [sigmoid_cross_entropy_with_logits(labels=z, logits=x)] *)
Definition sigmoid_cross_entropy_with_logits (z x : R) : R :=
  (Rmax x 0 - x * z + ln (1 + exp (- Rabs x)))%R.

(** [log_poisson_loss(targets=z, log_input=c)] *)
Definition log_poisson_loss (z c : R) : R := (exp c - z * c)%R.

Definition unregularized_loss (m : model) (examples : pydict) : res R :=
  _ <- _assert_specified
         ["example_labels"; "example_weights"; "sparse_features";
          "dense_features"] examples ;;
  _ <- _assert_list ["sparse_features"; "dense_features"] examples ;;
  predictions <- _linear_predictions m examples ;;
  lv <- getitem examples "example_labels" ;;
  labels <- as_vec lv ;;
  wv <- getitem examples "example_weights" ;;
  weights <- as_vec wv ;;
  if String.eqb (m_loss_type m) "logistic_loss" then
    _ <- assert_compatible labels predictions ;;
    l <- tf_binop sigmoid_cross_entropy_with_logits labels predictions ;;
    lw <- tf_binop Rmult l weights ;;
    Ok (reduce_sum lw / reduce_sum weights)%R
  else if String.eqb (m_loss_type m) "poisson_loss" then
    _ <- assert_compatible labels predictions ;;
    l <- tf_binop log_poisson_loss labels predictions ;;
    lw <- tf_binop Rmult l weights ;;
    Ok (reduce_sum lw / reduce_sum weights)%R
  else if String.eqb (m_loss_type m) "hinge_loss" ||
          String.eqb (m_loss_type m) "smooth_hinge_loss" then
    let all_ones := map (fun _ => 1%R) predictions in
    adjusted_labels <- tf_binop Rminus (map (fun y => (2 * y)%R) labels)
                         all_ones ;;
    margin <- tf_binop Rmult adjusted_labels predictions ;;
    e <- tf_binop Rminus all_ones margin ;;
    let error := map (Rmax 0) e in
    weighted_error <- tf_binop Rmult error weights ;;
    Ok (reduce_sum weighted_error / reduce_sum weights)%R
  else
    err <- tf_binop Rminus labels predictions ;;
    weighted_squared_err <- tf_binop Rmult (map (fun x => (x * x)%R) err)
                              weights ;;
    Ok (reduce_sum weighted_squared_err / (2 * reduce_sum weights))%R.

Definition regularized_loss (m : model) (examples : pydict) : res R :=
  _ <- _assert_specified
         ["example_labels"; "example_weights"; "sparse_features";
          "dense_features"] examples ;;
  _ <- _assert_list ["sparse_features"; "dense_features"] examples ;;
  wv <- getitem examples "example_weights" ;;
  weights <- as_vec wv ;;
  l1 <- _l1_loss m ;;
  l2 <- _l2_loss m ;;
  u <- unregularized_loss m examples ;;
  Ok ((l1 + l2) / reduce_sum weights + u)%R.

(** ** Running the graph *)

(** The ops a client of the model runs, on the model and the optional
    [global_step] variable. *)
Inductive model_op : Type :=
| RunMinimize
| RunUpdateWeights
| RunPredictions (examples : pydict)
| RunUnregularizedLoss (examples : pydict)
| RunRegularizedLoss (examples : pydict)
| RunDualityGap.

Section Session.
Variable sdca_fprint : string -> key.
Variable sdca_optimizer : op_inputs -> res op_outputs.

Definition run_op (s : model * option Z) (o : model_op)
  : res (model * option Z) :=
  match s with
  | (m, gs) =>
      match o with
      | RunMinimize => minimize sdca_fprint sdca_optimizer m gs
      | RunUpdateWeights =>
          update_weights (fun m0 => minimize sdca_fprint sdca_optimizer m0 gs) m
      | RunPredictions ex => _ <- predictions m ex ;; Ok s
      | RunUnregularizedLoss ex => _ <- unregularized_loss m ex ;; Ok s
      | RunRegularizedLoss ex => _ <- regularized_loss m ex ;; Ok s
      | RunDualityGap => _ <- approximate_duality_gap m ;; Ok s
      end
  end.

Definition run_ops (s : model * option Z) (os : list model_op)
  : res (model * option Z) :=
  foldM run_op os s.
End Session.

(** ** Additive slot updates *)

(** What [scatter_add] adds at row [k]: the updates whose index is [k]. *)
Definition scatter_sum (ids : list Z) (u : list R) (k : nat) : R :=
  reduce_sum (map snd (filter (fun p => Z.eqb (fst p) (Z.of_nat k))
                              (combine ids u))).

Definition added (w w' : list R) (ids : list Z) (u : list R) : Prop :=
  List.length w' = List.length w /\
  forall k, (k < List.length w)%nat ->
    nth k w' 0%R = (nth k w 0%R + scatter_sum ids u k)%R.

(** A sparse slot after [scatter_add] of the delta [u] at its
    [sparse_idx], or per partition at the routed rows. *)
Definition sparse_slot_added (old new : wvar) (g : var_gather) (u : list R)
  : Prop :=
  match old, new with
  | Whole w, Whole w' => added w w' (vg_sparse_idx g) u
  | Parted ps, Parted ps' =>
      exists r, vg_routing g = Some r /\
        List.length ps' = List.length ps /\
        forall p, (p < List.length ps)%nat ->
          added (nth p ps []) (nth p ps' []) (nth p (gather_ids r) [])
                (partition_of u (p_assignments r) p)
  | _, _ => False
  end.

(** A dense slot after [assign_add] of the delta [u] (split over the
    partitions): same shape, and the concatenation is the sum. *)
Definition dense_slot_added (old new : wvar) (u : list R) : Prop :=
  var_shape new = var_shape old /\
  List.length u = List.length (concat_var old) /\
  concat_var new = map (fun p => (fst p + snd p)%R) (combine (concat_var old) u).

(** [P w w' u] for the pairs of a Python [zip(ws, us)]; the [ws] past the
    end of [us] are unchanged. *)
Inductive zip_rel {A B : Type} (P : A -> A -> B -> Prop)
  : list A -> list A -> list B -> Prop :=
| zip_rel_nil_l : forall us, zip_rel P [] [] us
| zip_rel_nil_r : forall ws, zip_rel P ws ws []
| zip_rel_cons : forall w w' ws ws' u us,
    P w w' u -> zip_rel P ws ws' us ->
    zip_rel P (w :: ws) (w' :: ws') (u :: us).

Definition ok_or {A : Type} (d : A) (r : res A) : A :=
  match r with Ok a => a | Err _ => d end.

(** ** Concrete inputs used by witnesses and counterexamples *)

Definition ex_one : pydict :=
  [("example_labels", PTensor (TVec [1%R]));
   ("example_weights", PTensor (TVec [1%R]));
   ("example_ids", PTensor (TStrs ["a"]));
   ("sparse_features", PList []);
   ("dense_features", PList [])].

Definition vars_one : pydict :=
  [("sparse_features_weights", PList [PVar [0%R; 1%R]]);
   ("dense_features_weights", PList [])].

Definition opts_squared (l2 l1 : Q) : pydict :=
  [("loss_type", PStr "squared_loss");
   ("symmetric_l2_regularization", PNum l2);
   ("symmetric_l1_regularization", PNum l1)].


(** A fingerprint and an optimizer pass for concrete runs: the op sets
    every example's state to [(1, 2, 3, weight)] and every delta to 1. *)
Definition fprint_ex (s : string) : key :=
  (Z.of_nat (String.length s), 2%Z).

Definition optimizer_ex (inp : op_inputs) : res op_outputs :=
  Ok (mkOpOutputs (map (fun w => (1, 2, 3, w)%R) (op_example_weights inp))
        (map (fun idx => map (fun _ => 1%R) idx) (op_sparse_indices inp))
        (map (fun w => map (fun _ => 1%R) w) (op_dense_weights inp))).

(** One example, one sparse feature column naming feature 1 of example 0. *)
Definition ex_sparse (fv : option (list R)) : pydict :=
  [("example_labels", PTensor (TVec [1%R]));
   ("example_weights", PTensor (TVec [1%R]));
   ("example_ids", PTensor (TStrs ["a"]));
   ("sparse_features",
      PList [PSfc (mkSparseFeatureColumn [0%Z] [1%Z] fv)]);
   ("dense_features", PList [])].

Definition opts_loss (loss_type : string) (l2 l1 : Q) : pydict :=
  [("loss_type", PStr loss_type);
   ("symmetric_l2_regularization", PNum l2);
   ("symmetric_l1_regularization", PNum l1)].

Definition model_of (examples variables options : pydict) : model :=
  ok_or (mkModel [] [] "" 0 0 [] [] [] [] (table_new (0, 0, 0, 0)%R))
        (SDCAModel_init examples variables options).

(** ** Invariants and specifications of the further properties *)

(** Every user-provided weight variable has the shape of its unshrunk
    slot, which is what [update_weights] needs to copy the slots. *)
Definition shapes_match (m : model) : Prop :=
  map var_shape (m_sparse_w m) = map var_shape (m_slot_sparse m) /\
  map var_shape (m_dense_w m) = map var_shape (m_slot_dense m).

(** The number of ops of a run that run a training step ([minimize], alone
    or as the control dependency of [update_weights]). *)
Fixpoint train_steps (os : list model_op) : nat :=
  match os with
  | [] => O
  | RunMinimize :: os' | RunUpdateWeights :: os' => S (train_steps os')
  | _ :: os' => train_steps os'
  end.

(** The share of example [e]'s linear prediction from one sparse feature
    column with example indices [ei], feature indices [fi], values [fv] and
    concatenated weights [sv]: the sum of weight * value over the column's
    entries that belong to example [e]. *)
Definition column_dot (ei fi : list Z) (fv sv : list R) (e : nat) : R :=
  reduce_sum (map (fun j => if Z.eqb (nth j ei 0%Z) (Z.of_nat e)
                            then (nth (Z.to_nat (nth j fi 0%Z)) sv 0 * nth j fv 0)%R
                            else 0%R)
                  (seq 0 (List.length ei))).

Definition column_pred (c : SparseFeatureColumn) (sv : list R) (e : nat) : R :=
  match feature_values c with
  | Some fv => column_dot (example_indices c) (feature_indices c) fv sv e
  | None => 0%R
  end.

(** The sparse and the dense share of example [e]'s linear prediction. *)
Definition sparse_pred (cols : list SparseFeatureColumn) (svars : list (list R))
    (e : nat) : R :=
  reduce_sum (map (fun p => column_pred (fst p) (snd p) e) (combine cols svars)).

Definition dense_pred (dense : list (list (list R))) (dvars : list (list R))
    (e : nat) : R :=
  reduce_sum (map (fun i => dot (nth e (nth i dense []) []) (nth i dvars []))
                  (seq 0 (List.length dvars))).

(** A sparse feature column that [_linear_predictions] accepts for a batch
    of [batch] examples and the concatenated weights [sv]: values given,
    index and value vectors of one length, example indices sorted,
    non-negative and below [batch], feature indices rows of [sv]. *)
Definition column_ok (batch : nat) (c : SparseFeatureColumn) (sv : list R)
  : Prop :=
  exists fv, feature_values c = Some fv /\
    List.length (feature_indices c) = List.length (example_indices c) /\
    List.length fv = List.length (example_indices c) /\
    sorted_from 0 (example_indices c) = true /\
    (forall i, In i (example_indices c) -> (i < Z.of_nat batch)%Z) /\
    (forall i, In i (feature_indices c) ->
       (0 <= i)%Z /\ (Z.to_nat i < List.length sv)%nat).

(** A dense feature matrix with one row per example, each row as long as
    the dense weight vector [dv]. *)
Definition dense_ok (batch : nat) (df : list (list R)) (dv : list R) : Prop :=
  List.length df = batch /\ forall r, In r df -> List.length r = List.length dv.

(* ================================================================= *)
(** * Proofs *)

(** ** Lemmas about the checks *)

Lemma bind_ok {A B : Type} (a : A) (k : A -> res B) : bind (Ok a) k = k a.
Proof. reflexivity. Qed.

Lemma in_supported_losses_spec (v : pyval) :
  in_supported_losses v = true <->
  exists s, v = PStr s /\ In s supported_losses.
Proof.
  split.
  - destruct v; unfold in_supported_losses; try discriminate.
    intros H. apply existsb_exists in H as [x [Hin Heq]].
    apply String.eqb_eq in Heq. subst. eauto.
  - intros [s [-> Hin]]. unfold in_supported_losses. apply existsb_exists.
    exists s. split; [exact Hin | apply String.eqb_refl].
Qed.

Lemma py_le_num (q c : Q) : py_le (PNum q) c = Ok (Qle_bool q c).
Proof. reflexivity. Qed.

Lemma Qle_bool_false (q c : Q) : (c < q)%Q -> Qle_bool q c = false.
Proof.
  intros H. destruct (Qle_bool q c) eqn:E; [|reflexivity].
  apply Qle_bool_iff in E. exfalso. apply (Qlt_not_le c q); assumption.
Qed.

(** ** C5: the supported loss formulations *)

(** C5: a [loss_type] among the five supported ones passes the loss-type
    check, and [__init__] then runs the remaining checks as if that check
    were absent; any other [loss_type] value makes the constructor raise
    ValueError (whatever the other arguments are). *)
Theorem C5_loss_type_check (examples variables options : pydict) (v : pyval) :
  getitem options "loss_type" = Ok v ->
  ((exists s, v = PStr s /\ In s supported_losses) ->
     check_loss_type options = Ok tt /\
     init_checks examples variables options =
       (_ <- check_nonempty examples variables options ;;
        _ <- check_specified_all examples variables ;;
        check_regularization options)) /\
  (~ (exists s, v = PStr s /\ In s supported_losses) ->
     SDCAModel_init examples variables options = Err ValueError).
Proof.
  intros Hlt. split.
  - intros Hs. apply in_supported_losses_spec in Hs.
    assert (Hc : check_loss_type options = Ok tt).
    { unfold check_loss_type. rewrite Hlt. simpl. rewrite Hs. reflexivity. }
    split; [exact Hc|].
    unfold init_checks. rewrite Hc.
    destruct (check_nonempty examples variables options); reflexivity.
  - intros Hn.
    assert (Hs : in_supported_losses v = false).
    { destruct (in_supported_losses v) eqn:E; [|reflexivity].
      exfalso. apply Hn. apply in_supported_losses_spec. exact E. }
    unfold SDCAModel_init, init_checks, check_loss_type.
    rewrite Hlt. simpl. rewrite Hs.
    unfold check_nonempty.
    destruct (dict_empty examples || dict_empty variables
              || dict_empty options); reflexivity.
Qed.

Lemma C5_loss_type_check_witness :
  getitem (opts_squared 1 0) "loss_type" = Ok (PStr "squared_loss") /\
  check_loss_type (opts_squared 1 0) = Ok tt /\
  init_checks ex_one vars_one (opts_squared 1 0) =
    (_ <- check_nonempty ex_one vars_one (opts_squared 1 0) ;;
     _ <- check_specified_all ex_one vars_one ;;
     check_regularization (opts_squared 1 0)).
Proof.
  assert (H : getitem (opts_squared 1 0) "loss_type"
              = Ok (PStr "squared_loss")) by reflexivity.
  split; [exact H|].
  apply (proj1 (C5_loss_type_check ex_one vars_one (opts_squared 1 0) _ H)).
  exists "squared_loss". split; [reflexivity | simpl; tauto].
Defined.

(** ** C8: the regularization checks *)

(** C8 (as stated, refuted): an options dict with
    [symmetric_l2_regularization = 0.0] that lacks the
    [symmetric_l1_regularization] key makes the constructor raise KeyError,
    not ValueError. *)
Lemma C8_counterexample :
  getitem [("loss_type", PStr "squared_loss");
           ("symmetric_l2_regularization", PNum 0)]
          "symmetric_l2_regularization" = Ok (PNum 0) /\
  SDCAModel_init ex_one vars_one
    [("loss_type", PStr "squared_loss");
     ("symmetric_l2_regularization", PNum 0)] = Err KeyError.
Proof. split; vm_compute; reflexivity. Qed.

(** C8 (amended): once the checks before the regularization checks pass
    and the options dict holds numeric [symmetric_l2_regularization] and
    [symmetric_l1_regularization] values, [l2 <= 0] raises ValueError,
    [l2 > 0] with [l1 < 0] raises ValueError, and [l2 > 0] with [l1 >= 0]
    passes every constructor check. An options dict that lacks
    [symmetric_l2_regularization], or holds a non-None one but lacks
    [symmetric_l1_regularization], raises KeyError instead. *)
Theorem C8_regularization_checks (examples variables options : pydict) :
  check_nonempty examples variables options = Ok tt ->
  check_loss_type options = Ok tt ->
  check_specified_all examples variables = Ok tt ->
  (forall l2 l1 : Q,
     getitem options "symmetric_l2_regularization" = Ok (PNum l2) ->
     getitem options "symmetric_l1_regularization" = Ok (PNum l1) ->
     ((l2 <= 0)%Q -> SDCAModel_init examples variables options = Err ValueError)
     /\ ((0 < l2)%Q -> (l1 < 0)%Q ->
         SDCAModel_init examples variables options = Err ValueError)
     /\ ((0 < l2)%Q -> (0 <= l1)%Q ->
         init_checks examples variables options = Ok tt))
  /\ (getitem options "symmetric_l2_regularization" = Err KeyError ->
      SDCAModel_init examples variables options = Err KeyError)
  /\ (forall v2 : pyval,
        getitem options "symmetric_l2_regularization" = Ok v2 -> v2 <> PNone ->
        getitem options "symmetric_l1_regularization" = Err KeyError ->
        SDCAModel_init examples variables options = Err KeyError).
Proof.
  intros Hne Hlt Hsp.
  assert (Hlv : exists v, getitem options "loss_type" = Ok v /\ v <> PNone).
  { unfold check_loss_type in Hlt.
    destruct (getitem options "loss_type") as [v|e]; simpl in Hlt;
      [|discriminate].
    exists v. split; [reflexivity|]. intros ->. discriminate. }
  destruct Hlv as [v [Hv Hvn]].
  assert (Hinit : init_checks examples variables options
                  = check_regularization options).
  { unfold init_checks. rewrite Hne, Hlt, Hsp. reflexivity. }
  assert (Hmodel : forall e, init_checks examples variables options = Err e ->
                   SDCAModel_init examples variables options = Err e).
  { intros e He. unfold SDCAModel_init. rewrite He. reflexivity. }
  split; [|split].
  - intros l2 l1 H2 H1.
    assert (Hopt : _assert_specified
                     ["loss_type"; "symmetric_l2_regularization";
                      "symmetric_l1_regularization"] options = Ok tt).
    { simpl. rewrite Hv. simpl.
      destruct v; try (exfalso; apply Hvn; reflexivity);
        rewrite H2; simpl; rewrite H1; reflexivity. }
    assert (Hreg : check_regularization options =
                   if Qle_bool l2 0 then Err ValueError else
                   if negb (Qle_bool 0 l1) then Err ValueError else Ok tt).
    { unfold check_regularization. rewrite Hopt. simpl. rewrite H2. simpl.
      destruct (Qle_bool l2 0); [reflexivity|]. simpl. rewrite H1.
      reflexivity. }
    split; [|split].
    + intros Hle. apply Hmodel. rewrite Hinit, Hreg.
      apply Qle_bool_iff in Hle. rewrite Hle. reflexivity.
    + intros Hpos Hneg. apply Hmodel. rewrite Hinit, Hreg.
      rewrite (Qle_bool_false l2 0 Hpos).
      rewrite (Qle_bool_false 0 l1 Hneg). reflexivity.
    + intros Hpos Hnn. rewrite Hinit, Hreg.
      rewrite (Qle_bool_false l2 0 Hpos).
      apply Qle_bool_iff in Hnn. rewrite Hnn. reflexivity.
  - intros H2. apply Hmodel. rewrite Hinit. unfold check_regularization.
    simpl. rewrite Hv. simpl.
    destruct v; try (exfalso; apply Hvn; reflexivity);
      rewrite H2; reflexivity.
  - intros v2 H2 Hv2 H1. apply Hmodel. rewrite Hinit.
    unfold check_regularization. simpl. rewrite Hv. simpl.
    destruct v; try (exfalso; apply Hvn; reflexivity);
      rewrite H2; simpl;
      destruct v2; try (exfalso; apply Hv2; reflexivity);
      rewrite H1; reflexivity.
Qed.

Lemma C8_regularization_checks_witness :
  init_checks ex_one vars_one (opts_squared 1 0) = Ok tt /\
  SDCAModel_init ex_one vars_one
    [("loss_type", PStr "squared_loss");
     ("symmetric_l2_regularization", PNum 1)] = Err KeyError.
Proof.
  split.
  - apply (proj2 (proj2 (proj1 (C8_regularization_checks ex_one vars_one
                         (opts_squared 1 0) eq_refl eq_refl eq_refl)
                         1 0 eq_refl eq_refl))).
    + reflexivity.
    + discriminate.
  - apply (proj2 (proj2 (C8_regularization_checks ex_one vars_one
             [("loss_type", PStr "squared_loss");
              ("symmetric_l2_regularization", PNum 1)]
             eq_refl eq_refl eq_refl)) (PNum 1)).
    + reflexivity.
    + discriminate.
    + reflexivity.
Defined.

(** ** C6: [_SparseFeatureColumn] is an immutable triple *)

Lemma sfc_run_same (c : SparseFeatureColumn) (ms : list sfc_method) :
  fst (sfc_run c ms) = c.
Proof.
  induction ms as [|mth ms IH]; [reflexivity|].
  simpl. destruct mth; simpl;
    destruct (sfc_run c ms) as [c2 rs]; exact IH.
Qed.

(** C6: a column built from [example_indices], [feature_indices] and
    [feature_values] returns, through its three properties, exactly those
    inputs converted to int64, int64 and float32 (None stays None), and no
    sequence of calls on the object changes them. *)
Theorem C6_sparse_feature_column_immutable (Src : Type)
    (convert_int64 : Src -> res (list Z))
    (convert_float32 : Src -> res (list R))
    (ei fi : Src) (fv : option Src) (c : SparseFeatureColumn) :
  SparseFeatureColumn_init Src convert_int64 convert_float32 ei fi fv = Ok c ->
  forall ms : list sfc_method,
    let c' := fst (sfc_run c ms) in
    convert_int64 ei = Ok (example_indices c') /\
    convert_int64 fi = Ok (feature_indices c') /\
    match fv with
    | None => feature_values c' = None
    | Some v => exists xs, convert_float32 v = Ok xs /\
                           feature_values c' = Some xs
    end.
Proof.
  intros Hinit ms c'. subst c'. rewrite sfc_run_same.
  unfold SparseFeatureColumn_init in Hinit.
  destruct (convert_int64 ei) as [e|]; simpl in Hinit; [|discriminate].
  destruct (convert_int64 fi) as [f|]; simpl in Hinit; [|discriminate].
  destruct fv as [v|]; simpl in Hinit.
  - destruct (convert_float32 v) as [x|]; simpl in Hinit; [|discriminate].
    injection Hinit as <-. repeat split; eauto.
  - injection Hinit as <-. repeat split.
Qed.

Lemma C6_sparse_feature_column_immutable_witness :
  SparseFeatureColumn_init (list Z) (fun l => Ok l) (fun l => Ok (map IZR l))
    [0; 1]%Z [5; 6]%Z (Some [1; 2]%Z)
  = Ok (mkSparseFeatureColumn [0; 1]%Z [5; 6]%Z (Some [1%R; 2%R])) /\
  (let c' := fst (sfc_run (mkSparseFeatureColumn [0; 1]%Z [5; 6]%Z
                             (Some [1%R; 2%R]))
                          [Call_feature_values; Call_example_indices]) in
   Ok [0; 1]%Z = Ok (example_indices c') /\
   Ok [5; 6]%Z = Ok (feature_indices c') /\
   exists xs, Ok (map IZR [1; 2]%Z) = Ok xs /\ feature_values c' = Some xs).
Proof.
  assert (H : SparseFeatureColumn_init (list Z) (fun l => Ok l)
                (fun l => Ok (map IZR l)) [0; 1]%Z [5; 6]%Z (Some [1; 2]%Z)
              = Ok (mkSparseFeatureColumn [0; 1]%Z [5; 6]%Z
                      (Some [1%R; 2%R]))) by reflexivity.
  split; [exact H|].
  exact (C6_sparse_feature_column_immutable (list Z) (fun l => Ok l)
           (fun l => Ok (map IZR l)) _ _ _ _ H
           [Call_feature_values; Call_example_indices]).
Defined.

(** ** List lemmas for the tensor primitives *)

Lemma mapM_ok {A B : Type} (f : A -> res B) (g : A -> B) (xs : list A) :
  (forall x, In x xs -> f x = Ok (g x)) -> mapM f xs = Ok (map g xs).
Proof.
  induction xs as [|x xs IH]; simpl; intros H; [reflexivity|].
  rewrite H by (left; reflexivity). simpl.
  rewrite IH by (intros y Hy; apply H; right; exact Hy). reflexivity.
Qed.

Lemma partition_of_map {X A : Type} (f : X -> A) (g : X -> Z) (xs : list X)
    (k : nat) :
  partition_of (map f xs) (map g xs) k =
  map f (filter (fun x => Z.eqb (g x) (Z.of_nat k)) xs).
Proof.
  unfold partition_of. induction xs as [|x xs IH]; simpl; [reflexivity|].
  destruct (Z.eqb (g x) (Z.of_nat k)); simpl; rewrite IH; reflexivity.
Qed.

Lemma combine_map {X A B : Type} (f : X -> A) (g : X -> B) (xs : list X) :
  combine (map f xs) (map g xs) = map (fun x => (f x, g x)) xs.
Proof. induction xs as [|x xs IH]; simpl; [|rewrite IH]; reflexivity. Qed.

Lemma gather_ok {X A : Type} (params : list A) (h : X -> Z) (xs : list X)
    (d : A) :
  (forall x, In x xs -> (0 <= h x)%Z /\ (Z.to_nat (h x) < List.length params)%nat) ->
  gather params (map h xs) = Ok (map (fun x => nth (Z.to_nat (h x)) params d) xs).
Proof.
  intros H. unfold gather.
  rewrite (mapM_ok _ (fun i => nth (Z.to_nat i) params d)).
  - rewrite map_map. reflexivity.
  - intros i Hi. apply in_map_iff in Hi as [x [<- Hx]].
    destruct (H x Hx) as [H0 Hlt]. unfold gather_one.
    apply Z.leb_le in H0. rewrite H0.
    rewrite (nth_error_nth' params d Hlt). reflexivity.
Qed.

Lemma set_nth_length {A : Type} (xs : list A) (n : nat) (x : A) :
  List.length (set_nth xs n x) = List.length xs.
Proof.
  revert n. induction xs as [|y xs IH]; intros [|n]; simpl; auto.
Qed.

Lemma nth_error_set_nth_eq {A : Type} (xs : list A) (n : nat) (x : A) :
  (n < List.length xs)%nat -> nth_error (set_nth xs n x) n = Some x.
Proof.
  revert n. induction xs as [|y xs IH]; intros [|n] H; simpl in *; try lia.
  - reflexivity.
  - apply IH. lia.
Qed.

Lemma nth_error_set_nth_neq {A : Type} (xs : list A) (n j : nat) (x : A) :
  j <> n -> nth_error (set_nth xs n x) j = nth_error xs j.
Proof.
  revert n j. induction xs as [|y xs IH]; intros [|n] [|j] H; simpl;
    try congruence; try reflexivity.
  apply IH. lia.
Qed.

Lemma fold_stitch_length {A : Type} (pairs : list (Z * A))
    (out : list (option A)) :
  List.length (fold_left stitch_write pairs out) = List.length out.
Proof.
  revert out. induction pairs as [|p ps IH]; intros out; simpl; [reflexivity|].
  rewrite IH. unfold stitch_write. apply set_nth_length.
Qed.

(** Stitching pairs whose value is a function [G] of their index. *)
Lemma fold_stitch_value {A : Type} (G : nat -> A) (pairs : list (Z * A)) :
  (forall p, In p pairs -> snd p = G (Z.to_nat (fst p))) ->
  forall out j,
    (j < List.length out)%nat ->
    (nth_error out j = Some (Some (G j)) \/
     exists p, In p pairs /\ Z.to_nat (fst p) = j) ->
    nth_error (fold_left stitch_write pairs out) j = Some (Some (G j)).
Proof.
  induction pairs as [|p ps IH]; intros HG out j Hj Hcase; simpl.
  - destruct Hcase as [H | [p [[] _]]]. exact H.
  - apply IH.
    + intros p' Hp'. apply HG. right. exact Hp'.
    + unfold stitch_write. rewrite set_nth_length. exact Hj.
    + destruct (Nat.eq_dec (Z.to_nat (fst p)) j) as [Heq | Hne].
      * left. unfold stitch_write. rewrite Heq.
        rewrite nth_error_set_nth_eq by exact Hj.
        rewrite (HG p (or_introl eq_refl)), Heq. reflexivity.
      * destruct Hcase as [H | [p' [[Hp' | Hp'] Hk]]].
        -- left. unfold stitch_write.
           rewrite nth_error_set_nth_neq by congruence. exact H.
        -- subst p'. contradiction.
        -- right. exists p'. split; assumption.
Qed.

Lemma gather_parts_seq (ws : list (list R)) (G : nat -> list Z)
    (H : nat -> list R) (s : nat) :
  (forall k, (k < List.length ws)%nat ->
     gather (nth k ws []) (G (s + k)%nat) = Ok (H (s + k)%nat)) ->
  gather_parts ws (map G (seq s (List.length ws))) =
  Ok (map H (seq s (List.length ws))).
Proof.
  revert s. induction ws as [|x ws IH]; intros s Hk; simpl; [reflexivity|].
  pose proof (Hk O ltac:(simpl; lia)) as H0. simpl in H0.
  rewrite Nat.add_0_r in H0. rewrite H0. simpl.
  rewrite IH; [reflexivity|].
  intros k Hlt. replace (S s + k)%nat with (s + S k)%nat by lia.
  apply (Hk (S k)). simpl. lia.
Qed.

Lemma map_snd_combine_seq {A : Type} (l : list A) (s : nat) :
  map snd (combine (seq s (List.length l)) l) = l.
Proof.
  revert s. induction l as [|x l IH]; intros s; simpl; [reflexivity|].
  rewrite IH. reflexivity.
Qed.

Lemma map_fst_combine_seq {A : Type} (l : list A) (s : nat) :
  map fst (combine (seq s (List.length l)) l) = seq s (List.length l).
Proof.
  revert s. induction l as [|x l IH]; intros s; simpl; [reflexivity|].
  rewrite IH. reflexivity.
Qed.

Lemma in_combine_seq {A : Type} (l : list A) (s j : nat) (x d : A) :
  In (j, x) (combine (seq s (List.length l)) l) ->
  (s <= j < s + List.length l)%nat /\ x = nth (j - s) l d.
Proof.
  revert s. induction l as [|y l IH]; intros s Hin; simpl in *; [contradiction|].
  destruct Hin as [Heq | Hin].
  - injection Heq as <- <-. rewrite Nat.sub_diag. split; [lia | reflexivity].
  - destruct (IH (S s) Hin) as [Hb Hx]. split; [lia|].
    rewrite Hx. replace (j - s)%nat with (S (j - S s)) by lia. reflexivity.
Qed.

Lemma in_combine_seq_nth {A : Type} (l : list A) (j : nat) (d : A) :
  (j < List.length l)%nat -> In (j, nth j l d) (combine (seq 0 (List.length l)) l).
Proof.
  intros Hj.
  assert (Hlen : List.length (combine (seq 0 (List.length l)) l) = List.length l)
    by (rewrite length_combine, length_seq; lia).
  pose proof (nth_In (combine (seq 0 (List.length l)) l) (0%nat, d)
                (n := j) ltac:(lia)) as Hin.
  rewrite combine_nth in Hin by (rewrite length_seq; reflexivity).
  rewrite seq_nth in Hin by lia. exact Hin.
Qed.

Lemma dynamic_partition_map {X A : Type} (f : X -> A) (g : X -> Z)
    (xs : list X) (n : nat) :
  (forall x, In x xs -> (0 <= g x < Z.of_nat n)%Z) ->
  dynamic_partition (map f xs) (map g xs) n =
  Ok (map (fun k => map f (filter (fun x => Z.eqb (g x) (Z.of_nat k)) xs))
          (seq 0 n)).
Proof.
  intros Hg. unfold dynamic_partition.
  rewrite !length_map, Nat.eqb_refl.
  assert (Hr : forallb (fun p => (0 <=? p) && (p <? Z.of_nat n))%Z (map g xs)
               = true).
  { apply forallb_forall. intros y Hy. apply in_map_iff in Hy as [x [<- Hx]].
    destruct (Hg x Hx).
    apply andb_true_intro. split; [apply Z.leb_le | apply Z.ltb_lt]; lia. }
  rewrite Hr. simpl. f_equal. apply map_ext. intros k. apply partition_of_map.
Qed.

Lemma dynamic_stitch_filters {X A : Type} (f1 : X -> nat) (f2 : X -> A)
    (flt : nat -> list X) (S : list nat) :
  let pairs := List.concat (map (fun k => map (fun x => (Z.of_nat (f1 x), f2 x))
                                          (flt k)) S) in
  dynamic_stitch (map (fun k => map (fun x => Z.of_nat (f1 x)) (flt k)) S)
                 (map (fun k => map f2 (flt k)) S) =
  Ok (fold_left stitch_write pairs (repeat None (stitch_size pairs))).
Proof.
  intros pairs. unfold dynamic_stitch.
  rewrite combine_map, !length_map, Nat.eqb_refl.
  assert (H1 : forallb (fun p => Nat.eqb (List.length (fst p))
                                         (List.length (snd p)))
                 (map (fun k => (map (fun x => Z.of_nat (f1 x)) (flt k),
                                 map f2 (flt k))) S) = true).
  { apply forallb_forall. intros p Hp. apply in_map_iff in Hp as [k [<- _]].
    simpl. rewrite !length_map. apply Nat.eqb_refl. }
  assert (H2 : forallb (fun i => 0 <=? i)%Z
                 (List.concat (map (fun k => map (fun x => Z.of_nat (f1 x))
                                                 (flt k)) S)) = true).
  { apply forallb_forall. intros i Hi. apply in_concat in Hi as [l [Hl Hi]].
    apply in_map_iff in Hl as [k [<- _]].
    apply in_map_iff in Hi as [x [<- _]]. apply Z.leb_le. lia. }
  rewrite H1, H2. simpl. rewrite map_map. simpl.
  assert (Hp : List.concat (map (fun k => combine (map (fun x => Z.of_nat (f1 x)) (flt k))
                                                 (map f2 (flt k))) S) = pairs).
  { unfold pairs. f_equal. apply map_ext. intros k. apply combine_map. }
  rewrite Hp. reflexivity.
Qed.

Lemma stitch_reconstruct {A : Type} (ids : list Z) (F : Z -> A) (qk : Z -> Z)
    (P : nat) :
  (forall i, In i ids -> (0 <= qk i < Z.of_nat P)%Z) ->
  let T := combine (seq 0 (List.length ids)) ids in
  let pairs := List.concat
                 (map (fun k => map (fun t => (Z.of_nat (fst t), F (snd t)))
                                    (filter (fun t => Z.eqb (qk (snd t))
                                                            (Z.of_nat k)) T))
                      (seq 0 P)) in
  fold_left stitch_write pairs (repeat None (stitch_size pairs)) =
  map (fun i => Some (F i)) ids.
Proof.
  intros Hq T pairs.
  assert (Ha : forall p, In p pairs ->
               exists t, In t T /\ p = (Z.of_nat (fst t), F (snd t))).
  { intros p Hp. apply in_concat in Hp as [l [Hl Hp]].
    apply in_map_iff in Hl as [k [<- _]].
    apply in_map_iff in Hp as [t [<- Ht]].
    apply filter_In in Ht as [Ht _]. eauto. }
  assert (Hb : forall t, In t T -> In (Z.of_nat (fst t), F (snd t)) pairs).
  { intros t Ht. apply in_concat.
    assert (Hi : In (snd t) ids)
      by (destruct t as [j i]; apply in_combine_r in Ht; exact Ht).
    destruct (Hq _ Hi) as [Hq0 HqP].
    eexists. split.
    - apply in_map_iff. exists (Z.to_nat (qk (snd t))). split; [reflexivity|].
      apply in_seq. lia.
    - apply in_map_iff. exists t. split; [reflexivity|].
      apply filter_In. split; [exact Ht|]. apply Z.eqb_eq. lia. }
  assert (Hc : forall t, In t T ->
               (fst t < List.length ids)%nat /\ snd t = nth (fst t) ids 0%Z).
  { intros [j i] Ht. apply (in_combine_seq ids 0 j i 0%Z) in Ht as [Hb' Hx].
    simpl. rewrite Nat.sub_0_r in Hx. split; [lia | exact Hx]. }
  assert (Hsize : stitch_size pairs = List.length ids).
  { unfold stitch_size. destruct pairs as [|p0 ps] eqn:Ep.
    - destruct ids as [|i0 ids'] eqn:Ei; [reflexivity|].
      exfalso. apply (Hb (0%nat, i0)).
      unfold T. simpl. left. reflexivity.
    - assert (Hm : (0 < List.length ids)%nat).
      { destruct (Ha p0 (or_introl eq_refl)) as [t [Ht _]].
        destruct (Hc t Ht). lia. }
      rewrite <- Ep. rewrite <- Ep in Ha, Hb.
      assert (Hle : (list_max (map (fun p => Z.to_nat (fst p)) pairs)
                     <= List.length ids - 1)%nat).
      { apply list_max_le, Forall_forall. intros k Hk.
        apply in_map_iff in Hk as [p [<- Hp]].
        destruct (Ha p Hp) as [t [Ht ->]]. destruct (Hc t Ht). simpl. lia. }
      assert (Hge : (List.length ids - 1 <=
                     list_max (map (fun p => Z.to_nat (fst p)) pairs))%nat).
      { assert (Hin : In (List.length ids - 1)%nat
                        (map (fun p => Z.to_nat (fst p)) pairs)).
        { apply in_map_iff.
          exists (Z.of_nat (List.length ids - 1),
                  F (nth (List.length ids - 1) ids 0%Z)).
          split; [simpl; lia|].
          apply (Hb (List.length ids - 1, nth (List.length ids - 1) ids 0%Z))%nat.
          apply in_combine_seq_nth. lia. }
        pose proof (proj1 (list_max_le (map (fun p => Z.to_nat (fst p)) pairs) _)
                      (le_n _)) as Hall.
        rewrite Forall_forall in Hall. apply Hall. exact Hin. }
      lia. }
  rewrite Hsize. apply nth_error_ext. intros j.
  destruct (Nat.lt_ge_cases j (List.length ids)) as [Hj | Hj].
  - rewrite nth_error_map, (nth_error_nth' ids 0%Z Hj). simpl.
    apply (fold_stitch_value (fun j => F (nth j ids 0%Z))).
    + intros p Hp. destruct (Ha p Hp) as [t [Ht ->]]. simpl.
      rewrite Nat2Z.id. f_equal. apply (Hc t Ht).
    + rewrite repeat_length. exact Hj.
    + right. exists (Z.of_nat j, F (nth j ids 0%Z)). split.
      * apply (Hb (j, nth j ids 0%Z)). apply in_combine_seq_nth. exact Hj.
      * simpl. lia.
  - transitivity (@None (option A)).
    + apply nth_error_None. rewrite fold_stitch_length, repeat_length. exact Hj.
    + symmetry. apply nth_error_None. rewrite length_map. exact Hj.
Qed.

(** ** Arithmetic of div partitioning *)

(** With [n = p * ipp + e], [0 <= e < p] and [ipp >= 1], id [i] lands in
    partition [q] at row [r], and the rows of the partitions before [q]
    ([q * ipp + min q e] of them) followed by [r] give back [i]. *)
Lemma div_route_arith (P N ipp e i : Z) :
  (1 <= ipp)%Z -> (0 <= e < P)%Z -> N = (P * ipp + e)%Z -> (0 <= i < N)%Z ->
  let q := Z.max (i / (ipp + 1)) ((i - e) / ipp) in
  let r := if (q <? e)%Z then (i mod (ipp + 1))%Z else ((i - e) mod ipp)%Z in
  (0 <= q < P)%Z /\ (0 <= r)%Z /\
  (r < (if (q <? e)%Z then ipp + 1 else ipp))%Z /\
  i = (q * ipp + Z.min q e + r)%Z.
Proof.
  intros Hipp He HN Hi q r.
  assert (Hb1 : (0 < ipp + 1)%Z) by lia.
  assert (Hb2 : (0 < ipp)%Z) by lia.
  pose proof (Z.div_mod i (ipp + 1) ltac:(lia)) as Hd1.
  pose proof (Z.mod_pos_bound i (ipp + 1) Hb1) as Hm1.
  pose proof (Z.div_mod (i - e) ipp ltac:(lia)) as Hd2.
  pose proof (Z.mod_pos_bound (i - e) ipp Hb2) as Hm2.
  set (q1 := (i / (ipp + 1))%Z) in *.
  set (r1 := (i mod (ipp + 1))%Z) in *.
  set (q2 := ((i - e) / ipp)%Z) in *.
  set (r2 := ((i - e) mod ipp)%Z) in *.
  destruct (Z_lt_ge_dec i (e * (ipp + 1))) as [Hlow | Hhigh].
  - assert (Hq1 : (0 <= q1)%Z) by (apply Z.div_pos; lia).
    assert (Hq1e : (q1 < e)%Z) by (apply Z.div_lt_upper_bound; lia).
    assert (Hq2 : (q2 < q1 + 1)%Z) by (apply Z.div_lt_upper_bound; nia).
    assert (Hq : q = q1) by (unfold q; lia).
    assert (Hlt : (q <? e)%Z = true) by (apply Z.ltb_lt; lia).
    unfold r. rewrite Hlt. rewrite Hq.
    rewrite Z.min_l by lia. repeat split; nia.
  - assert (Hq2e : (e <= q2)%Z) by (apply Z.div_le_lower_bound; nia).
    assert (Hq2P : (q2 < P)%Z) by (apply Z.div_lt_upper_bound; nia).
    assert (Hq1 : (q1 < q2 + 1)%Z) by (apply Z.div_lt_upper_bound; nia).
    assert (Hq : q = q2) by (unfold q; lia).
    assert (Hlt : (q <? e)%Z = false) by (apply Z.ltb_ge; lia).
    unfold r. rewrite Hlt. rewrite Hq.
    rewrite Z.min_r by lia. repeat split; nia.
Qed.

(** ** Rows of a partitioned variable *)

Lemma nth_error_concat_firstn (w : list (list R)) (q r : nat) :
  (q < List.length w)%nat -> (r < List.length (nth q w []))%nat ->
  nth_error (List.concat w) (dim_0_size (firstn q w) + r) =
  nth_error (nth q w []) r.
Proof.
  revert q. induction w as [|x w IH]; intros q Hq Hr; simpl in *; [lia|].
  destruct q as [|q]; simpl in *.
  - apply nth_error_app1. exact Hr.
  - rewrite nth_error_app2 by lia.
    replace (List.length x + dim_0_size (firstn q w) + r - List.length x)%nat
      with (dim_0_size (firstn q w) + r)%nat by lia.
    apply IH; lia.
Qed.

Lemma dim_0_size_firstn_S (w : list (list R)) (q : nat) :
  (q < List.length w)%nat ->
  dim_0_size (firstn (S q) w) =
  (dim_0_size (firstn q w) + List.length (nth q w []))%nat.
Proof.
  revert q. induction w as [|x w IH]; intros q Hq; simpl in *; [lia|].
  destruct q as [|q]; simpl.
  - lia.
  - rewrite IH by lia. simpl. lia.
Qed.

Lemma dim_0_size_firstn_layout (w : list (list R)) :
  div_layout w ->
  let n := Z.of_nat (dim_0_size w) in
  let p := Z.of_nat (List.length w) in
  forall q, (q <= List.length w)%nat ->
    Z.of_nat (dim_0_size (firstn q w)) =
    (Z.of_nat q * (n / p) + Z.min (Z.of_nat q) (n mod p))%Z.
Proof.
  intros Hlay n p q. induction q as [|q IH]; intros Hq.
  - simpl. rewrite Z.min_l; [lia|].
    destruct (Z.eq_dec p 0) as [Hp | Hp].
    + rewrite Hp, Z.mod_0_r. unfold n. lia.
    + apply Z.mod_pos_bound. unfold p in *. lia.
  - rewrite dim_0_size_firstn_S by lia.
    rewrite Nat2Z.inj_add, IH by lia.
    rewrite (Hlay q) by lia. fold n p.
    destruct (Z.ltb_spec (Z.of_nat q) (n mod p)) as [Hlt | Hge].
    + rewrite Z.min_l by lia. rewrite Z.min_l by lia. lia.
    + rewrite Z.min_r by lia. rewrite Z.min_r by lia. lia.
Qed.

(** ** The routing of [minimize] under div layout *)

Lemma cast_int32_small (z : Z) :
  (- 2 ^ 31 <= z < 2 ^ 31)%Z -> cast_int32 z = z.
Proof.
  intros H. unfold cast_int32.
  rewrite Z.mod_small by lia. lia.
Qed.

Lemma div_routing_nonempty (w : list (list R)) (flat_ids : list Z) :
  w <> [] ->
  div_routing w flat_ids =
   (let num_parts := List.length w in
    let num_total_ids := Z.of_nat (dim_0_size w) in
    let ids_per_partition := (num_total_ids / Z.of_nat num_parts)%Z in
    let extras := (num_total_ids mod Z.of_nat num_parts)%Z in
    a <- mapM (fun i => x <- floordiv i (ids_per_partition + 1) ;;
                        y <- floordiv (i - extras) ids_per_partition ;;
                        Ok (Z.max x y)) flat_ids ;;
    n1 <- mapM (fun i => floormod i (ids_per_partition + 1)) flat_ids ;;
    n2 <- mapM (fun i => floormod (i - extras) ids_per_partition) flat_ids ;;
    let nw := map (fun t => match t with
                            | (p, (x, y)) => if (p <? extras)%Z then x else y
                            end) (combine a (combine n1 n2)) in
    let a32 := map cast_int32 a in
    g <- dynamic_partition nw a32 num_parts ;;
    Ok (mkRouting num_parts a32 g nw)).
Proof. destruct w; [congruence | reflexivity]. Qed.

Section DivRouting.
Variable w : list (list R).
Variable ids : list Z.

Hypothesis HP : (1 <= List.length w)%nat.
Hypothesis HPn : (List.length w <= dim_0_size w)%nat.
Hypothesis HP32 : (Z.of_nat (List.length w) <= 2 ^ 31)%Z.
Hypothesis Hlay : div_layout w.
Hypothesis Hids : forall i, In i ids -> (0 <= i < Z.of_nat (dim_0_size w))%Z.

Lemma ipp_pos : (1 <= ids_per_partition_of w)%Z.
Proof.
  unfold ids_per_partition_of. apply Z.div_le_lower_bound; lia.
Qed.

Lemma e_bounds : (0 <= extras_of w < Z.of_nat (List.length w))%Z.
Proof. unfold extras_of. apply Z.mod_pos_bound. lia. Qed.

Lemma n_split :
  Z.of_nat (dim_0_size w) =
  (Z.of_nat (List.length w) * ids_per_partition_of w + extras_of w)%Z.
Proof.
  unfold ids_per_partition_of, extras_of. apply Z.div_mod. lia.
Qed.

Lemma route_facts (i : Z) :
  (0 <= i < Z.of_nat (dim_0_size w))%Z ->
  let q := route_partition (ids_per_partition_of w) (extras_of w) i in
  let r := route_row (ids_per_partition_of w) (extras_of w) i in
  (0 <= q < Z.of_nat (List.length w))%Z /\ (0 <= r)%Z /\
  (Z.to_nat r < List.length (nth (Z.to_nat q) w []))%nat /\
  Z.to_nat i = (dim_0_size (firstn (Z.to_nat q) w) + Z.to_nat r)%nat.
Proof.
  intros Hi q r.
  pose proof (div_route_arith (Z.of_nat (List.length w))
                (Z.of_nat (dim_0_size w)) (ids_per_partition_of w)
                (extras_of w) i ipp_pos e_bounds n_split Hi) as H.
  cbv zeta in H.
  change (Z.max (i / (ids_per_partition_of w + 1))
                ((i - extras_of w) / ids_per_partition_of w)) with q in H.
  change (if (q <? extras_of w)%Z then (i mod (ids_per_partition_of w + 1))%Z
          else ((i - extras_of w) mod ids_per_partition_of w)%Z)
    with r in H.
  destruct H as [Hq [Hr [Hrs Heq]]].
  assert (Hlen := Hlay (Z.to_nat q) ltac:(lia)).
  cbv zeta in Hlen.
  fold (ids_per_partition_of w) (extras_of w) in Hlen.
  rewrite Z2Nat.id in Hlen by lia.
  assert (Hoff := dim_0_size_firstn_layout w Hlay (Z.to_nat q) ltac:(lia)).
  cbv zeta in Hoff.
  fold (ids_per_partition_of w) (extras_of w) in Hoff.
  rewrite Z2Nat.id in Hoff by lia.
  split; [exact Hq|]. split; [exact Hr|].
  destruct (q <? extras_of w)%Z; split; lia.
Qed.
Lemma div_routing_result :
  let q := route_partition (ids_per_partition_of w) (extras_of w) in
  let r := route_row (ids_per_partition_of w) (extras_of w) in
  div_routing w ids =
  Ok (mkRouting (List.length w) (map q ids)
        (map (fun k => map r (filter (fun i => Z.eqb (q i) (Z.of_nat k)) ids))
             (seq 0 (List.length w)))
        (map r ids)).
Proof.
  intros q r.
  assert (Hw : w <> []) by (destruct w; simpl in HP; [lia | discriminate]).
  rewrite div_routing_nonempty by exact Hw. cbv zeta.
  change (Z.of_nat (dim_0_size w) / Z.of_nat (List.length w))%Z
    with (ids_per_partition_of w).
  change (Z.of_nat (dim_0_size w) mod Z.of_nat (List.length w))%Z
    with (extras_of w).
  pose proof ipp_pos as Hipp.
  assert (Hne1 : Z.eqb (ids_per_partition_of w + 1) 0 = false)
    by (apply Z.eqb_neq; lia).
  assert (Hne2 : Z.eqb (ids_per_partition_of w) 0 = false)
    by (apply Z.eqb_neq; lia).
  rewrite (mapM_ok _ q) by
    (intros i _; unfold floordiv; rewrite Hne1, Hne2; reflexivity).
  rewrite (mapM_ok _ (fun i => (i mod (ids_per_partition_of w + 1))%Z)) by
    (intros i _; unfold floormod; rewrite Hne1; reflexivity).
  rewrite (mapM_ok _ (fun i => ((i - extras_of w) mod
                                ids_per_partition_of w)%Z)) by
    (intros i _; unfold floormod; rewrite Hne2; reflexivity).
  cbn [bind].
  rewrite combine_map, combine_map, map_map.
  change (map (fun x => if (q x <? extras_of w)%Z
                        then (x mod (ids_per_partition_of w + 1))%Z
                        else ((x - extras_of w) mod ids_per_partition_of w)%Z)
              ids) with (map r ids).
  assert (Hcast : map cast_int32 (map q ids) = map q ids).
  { rewrite map_map. apply map_ext_in. intros i Hi.
    destruct (route_facts i (Hids i Hi)) as [Hq _].
    apply cast_int32_small. fold q in Hq. lia. }
  rewrite Hcast.
  unfold dynamic_partition.
  rewrite !length_map, Nat.eqb_refl.
  assert (Hrange : forallb (fun p => (0 <=? p) && (p <? Z.of_nat (List.length w)))%Z
                     (map q ids) = true).
  { apply forallb_forall. intros x Hx. apply in_map_iff in Hx as [i [<- Hi]].
    destruct (route_facts i (Hids i Hi)) as [Hq _]. fold q in Hq.
    apply andb_true_intro. split; [apply Z.leb_le | apply Z.ltb_lt]; lia. }
  rewrite Hrange. simpl.
  do 2 f_equal. apply map_ext. intros k. apply partition_of_map.
Qed.
Lemma partitioned_gather_result :
  let q := route_partition (ids_per_partition_of w) (extras_of w) in
  let r := route_row (ids_per_partition_of w) (extras_of w) in
  let F := fun i => nth (Z.to_nat (r i)) (nth (Z.to_nat (q i)) w []) 0%R in
  partitioned_gather w
    (mkRouting (List.length w) (map q ids)
       (map (fun k => map r (filter (fun i => Z.eqb (q i) (Z.of_nat k)) ids))
            (seq 0 (List.length w)))
       (map r ids))
  = Ok (map (fun i => Some (F i)) ids).
Proof.
  intros q r F.
  assert (Hqb : forall i, In i ids -> (0 <= q i < Z.of_nat (List.length w))%Z).
  { intros i Hi. destruct (route_facts i (Hids i Hi)) as [Hq _]. exact Hq. }
  unfold partitioned_gather.
  cbn [gather_ids new_ids p_assignments num_partitions].
  rewrite (gather_parts_seq w _
             (fun k => map F (filter (fun i => Z.eqb (q i) (Z.of_nat k)) ids))
             0).
  2: { intros k Hk. simpl.
       rewrite (gather_ok _ r _ 0%R).
       - f_equal. apply map_ext_in. intros i Hi.
         apply filter_In in Hi as [Hi Hqk]. apply Z.eqb_eq in Hqk.
         unfold F. rewrite Hqk, Nat2Z.id. reflexivity.
       - intros i Hi. apply filter_In in Hi as [Hi Hqk].
         apply Z.eqb_eq in Hqk.
         destruct (route_facts i (Hids i Hi)) as [_ [Hr [Hrs _]]].
         fold q r in Hr, Hrs. rewrite Hqk, Nat2Z.id in Hrs.
         split; assumption. }
  cbn [bind]. rewrite length_map.
  set (T := combine (seq 0 (List.length ids)) ids).
  assert (HT1 : map Z.of_nat (seq 0 (List.length ids)) =
                map (fun t => Z.of_nat (fst t)) T).
  { unfold T. rewrite <- (map_map fst Z.of_nat), map_fst_combine_seq.
    reflexivity. }
  assert (HT2 : map q ids = map (fun t => q (snd t)) T).
  { unfold T. rewrite <- (map_map snd q), map_snd_combine_seq. reflexivity. }
  assert (HD : forall k,
             map F (filter (fun i => Z.eqb (q i) (Z.of_nat k)) ids) =
             map (fun t => F (snd t))
                 (filter (fun t => Z.eqb (q (snd t)) (Z.of_nat k)) T)).
  { intros k.
    transitivity (map F (filter (fun i => Z.eqb (q i) (Z.of_nat k))
                                (map snd T))).
    - unfold T. rewrite map_snd_combine_seq. reflexivity.
    - rewrite filter_map_swap, map_map. reflexivity. }
  rewrite HT1, HT2.
  rewrite dynamic_partition_map.
  2: { intros t Ht. apply Hqb. destruct t as [j i].
       apply in_combine_r in Ht. exact Ht. }
  cbn [bind].
  rewrite (map_ext _ _ HD).
  rewrite (dynamic_stitch_filters fst (fun t => F (snd t))
             (fun k => filter (fun t => Z.eqb (q (snd t)) (Z.of_nat k)) T)).
  f_equal. apply (stitch_reconstruct ids F q (List.length w) Hqb).
Qed.
End DivRouting.

(** ** C3: routing of partitioned sparse weights *)

(** C3 (as stated, refuted): with two partitions of 3 and 1 rows (n = 4,
    p = 2, so ids_per_partition = 2 and extras = 0), id 2 is routed to
    partition 1, row 0, and the gather returns row 3 of the concatenated
    variable (13) instead of row 2 (12). *)
Lemma C3_counterexample :
  let w := [[10; 11; 12]; [13]]%R in
  (r <- div_routing w [2%Z] ;; partitioned_gather w r) = Ok [Some 13%R] /\
  nth_error (List.concat w) 2 = Some 12%R /\ 13%R <> 12%R.
Proof.
  split; [|split].
  - vm_compute. reflexivity.
  - reflexivity.
  - lra.
Qed.

(** C3 (amended): for a partitioned variable in div layout (the first
    [n mod p] partitions hold [n / p + 1] rows, the others [n / p]) with
    [1 <= p <= n] and [p <= 2^31], and every list of ids with
    [0 <= i < n], the routing of [minimize] assigns id [i] to partition
    [max(i // (ids_per_partition + 1), (i - extras) // ids_per_partition)],
    and the per-partition gather followed by [dynamic_stitch] returns the
    rows at those ids of the concatenated variable, in the order of the
    ids. *)
Theorem C3_div_routing_reconstructs (w : list (list R)) (ids : list Z) :
  (1 <= List.length w)%nat ->
  (List.length w <= dim_0_size w)%nat ->
  (Z.of_nat (List.length w) <= 2 ^ 31)%Z ->
  div_layout w ->
  (forall i, In i ids -> (0 <= i < Z.of_nat (dim_0_size w))%Z) ->
  let n := Z.of_nat (dim_0_size w) in
  let p := Z.of_nat (List.length w) in
  let ids_per_partition := (n / p)%Z in
  let extras := (n mod p)%Z in
  exists r,
    div_routing w ids = Ok r /\
    p_assignments r =
      map (fun i => Z.max (i / (ids_per_partition + 1))
                          ((i - extras) / ids_per_partition)) ids /\
    partitioned_gather w r =
      Ok (map (fun i => nth_error (List.concat w) (Z.to_nat i)) ids).
Proof.
  intros HP HPn HP32 Hlay Hids n p ipp e.
  eexists. split; [apply div_routing_result; assumption|].
  split; [reflexivity|].
  rewrite partitioned_gather_result by assumption.
  f_equal. apply map_ext_in. intros i Hi.
  assert (Hf : (0 <= i < Z.of_nat (dim_0_size w))%Z) by (apply Hids; exact Hi).
  pose proof (route_facts w) as Hrf.
  edestruct Hrf as [Hq [Hr [Hrs Heq]]]; try eassumption.
  rewrite Heq, nth_error_concat_firstn by lia.
  symmetry. apply nth_error_nth'. exact Hrs.
Qed.

Lemma C3_div_routing_reconstructs_witness :
  exists r,
    div_routing [[10; 11]; [12]; [13]]%R [3; 0; 2]%Z = Ok r /\
    p_assignments r =
      map (fun i => Z.max (i / (1 + 1)) ((i - 1) / 1)) [3; 0; 2]%Z /\
    partitioned_gather [[10; 11]; [12]; [13]]%R r =
      Ok (map (fun i => nth_error (List.concat [[10; 11]; [12]; [13]]%R)
                                  (Z.to_nat i)) [3; 0; 2]%Z).
Proof.
  apply (C3_div_routing_reconstructs [[10; 11]; [12]; [13]]%R [3; 0; 2]%Z).
  - simpl. lia.
  - simpl. lia.
  - vm_compute. discriminate.
  - intros q Hq. simpl in Hq.
    destruct q as [|[|[|q]]]; [reflexivity | reflexivity | reflexivity | lia].
  - intros i Hi. simpl in Hi. simpl. lia.
Defined.

(** ** Lemmas about the update loops *)

Ltac inv_bind H :=
  match type of H with
  | bind ?m _ = _ =>
      let E := fresh "E" in
      destruct m eqn:E; cbn [bind] in H; [|discriminate H]
  end.

Lemma update_zip_rel {A B : Type} (f : A -> B -> res A)
    (P : A -> A -> B -> Prop) (ws : list A) (us : list B) (ws' : list A) :
  (forall w u w', f w u = Ok w' -> P w w' u) ->
  update_zip f ws us = Ok ws' -> zip_rel P ws ws' us.
Proof.
  intros Hf. revert us ws'.
  induction ws as [|w ws IH]; intros us ws' H.
  - destruct us; simpl in H; inversion H; subst; constructor.
  - destruct us as [|u us]; simpl in H.
    + inversion H; subst. constructor.
    + inv_bind H. inv_bind H. inversion H; subst.
      constructor; [apply Hf; assumption | apply IH; assumption].
Qed.

Lemma mapM_nth {A B : Type} (f : A -> res B) (xs : list A) (ys : list B) :
  mapM f xs = Ok ys ->
  List.length ys = List.length xs /\
  forall p dA dB, (p < List.length xs)%nat -> f (nth p xs dA) = Ok (nth p ys dB).
Proof.
  revert ys. induction xs as [|x xs IH]; intros ys H; simpl in H.
  - inversion H; subst. split; [reflexivity|]. simpl. intros; lia.
  - inv_bind H. inv_bind H. inversion H; subst.
    destruct (IH _ eq_refl) as [Hl Hn]. split; [simpl; lia|].
    intros [|p] dA dB Hp; simpl; [assumption|]. apply Hn. simpl in Hp. lia.
Qed.

Lemma nth_set_nth_eq {A : Type} (xs : list A) (n : nat) (x d : A) :
  (n < List.length xs)%nat -> nth n (set_nth xs n x) d = x.
Proof.
  revert n. induction xs as [|y xs IH]; intros [|n] H; simpl in *; try lia;
    [reflexivity | apply IH; lia].
Qed.

Lemma nth_set_nth_neq {A : Type} (xs : list A) (n j : nat) (x d : A) :
  j <> n -> nth j (set_nth xs n x) d = nth j xs d.
Proof.
  revert n j. induction xs as [|y xs IH]; intros [|n] [|j] H; simpl;
    try reflexivity; try lia. apply IH. lia.
Qed.

(** [scatter_add] adds every update to its row. *)
Lemma scatter_fold_spec (ps : list (Z * R)) (w w' : list R) :
  foldM scatter_add1 ps w = Ok w' ->
  List.length w' = List.length w /\
  forall k, nth k w' 0%R =
    (nth k w 0%R +
     reduce_sum (map snd (filter (fun p => Z.eqb (fst p) (Z.of_nat k)) ps)))%R.
Proof.
  revert w. induction ps as [|[i x] ps IH]; intros w H; simpl in H.
  - inversion H; subst. split; [reflexivity|]. intros k. simpl. ring.
  - unfold scatter_add1 in H. cbn [fst snd] in H.
    destruct ((0 <=? i)%Z && Nat.ltb (Z.to_nat i) (List.length w)) eqn:Hb;
      cbn [bind] in H; [|discriminate H].
    apply andb_true_iff in Hb as [Hi Hlt].
    apply Z.leb_le in Hi. apply Nat.ltb_lt in Hlt.
    destruct (IH _ H) as [Hlen Hk]. rewrite set_nth_length in Hlen.
    split; [exact Hlen|]. intros k. rewrite Hk. simpl.
    destruct (Z.eqb i (Z.of_nat k)) eqn:Ek.
    + apply Z.eqb_eq in Ek. subst i. rewrite Nat2Z.id in *.
      rewrite nth_set_nth_eq by assumption. simpl. ring.
    + rewrite nth_set_nth_neq; [reflexivity|].
      intros Hc. subst k. rewrite Z2Nat.id, Z.eqb_refl in Ek by lia.
      discriminate.
Qed.

Lemma scatter_add_spec (w : list R) (ids : list Z) (u w' : list R) :
  scatter_add w ids u = Ok w' -> added w w' ids u.
Proof.
  unfold scatter_add. destruct (Nat.eqb _ _); [|discriminate].
  intros H. destruct (scatter_fold_spec _ _ _ H) as [Hl Hk].
  split; [exact Hl|]. intros k _. apply Hk.
Qed.

Lemma dynamic_partition_ok {A : Type} (d : list A) (p : list Z) (n : nat)
    (g : list (list A)) :
  dynamic_partition d p n = Ok g -> g = map (partition_of d p) (seq 0 n).
Proof.
  unfold dynamic_partition. destruct (_ && _); intros H; inversion H; auto.
Qed.

Lemma nth_map_seq {A : Type} (F : nat -> A) (n p : nat) (d : A) :
  (p < n)%nat -> nth p (map F (seq 0 n)) d = F p.
Proof.
  intros Hp. rewrite (nth_indep _ d (F 0%nat)) by (rewrite length_map, length_seq; lia).
  rewrite map_nth, seq_nth by lia. reflexivity.
Qed.

Lemma div_routing_lengths (w : list (list R)) (ids : list Z) (r : routing) :
  div_routing w ids = Ok r ->
  num_partitions r = List.length w /\ List.length (gather_ids r) = List.length w.
Proof.
  unfold div_routing. destruct w as [|w0 w']; [discriminate|].
  cbn zeta. intros H. inv_bind H. inv_bind H. inv_bind H. inv_bind H.
  inversion H; subst. cbn [num_partitions gather_ids].
  split; [reflexivity|].
  apply dynamic_partition_ok in E2. subst. rewrite length_map, length_seq.
  reflexivity.
Qed.

Lemma partitioned_scatter_add_spec (ps : list (list R)) (r : routing)
    (u : list R) (ps' : list (list R)) :
  num_partitions r = List.length ps ->
  List.length (gather_ids r) = List.length ps ->
  partitioned_scatter_add ps r u = Ok ps' ->
  List.length ps' = List.length ps /\
  forall p, (p < List.length ps)%nat ->
    added (nth p ps []) (nth p ps' []) (nth p (gather_ids r) [])
          (partition_of u (p_assignments r) p).
Proof.
  intros Hn Hg H. unfold partitioned_scatter_add in H. inv_bind H.
  apply dynamic_partition_ok in E. rewrite Hn in E. subst.
  destruct (mapM_nth _ _ _ H) as [Hl Hp].
  assert (Hc : List.length (combine ps (combine (gather_ids r)
                 (map (partition_of u (p_assignments r)) (seq 0 (List.length ps)))))
               = List.length ps).
  { rewrite !length_combine, length_map, length_seq, Hg. lia. }
  split; [lia|]. intros p Hlt.
  specialize (Hp p ([], ([], [])) [] ltac:(lia)).
  rewrite !combine_nth in Hp
    by (rewrite ?length_combine, ?length_map, ?length_seq, ?Hg; lia).
  rewrite nth_map_seq in Hp by exact Hlt.
  apply scatter_add_spec. exact Hp.
Qed.

(** The sparse slot updates of [minimize] are the additive updates of
    [sparse_slot_added]. *)
Lemma sparse_update_spec (w : wvar) (fi : list Z) (g : var_gather)
    (u : list R) (w' : wvar) :
  sparse_gather w fi = Ok g -> sparse_update w (g, u) = Ok w' ->
  sparse_slot_added w w' g u.
Proof.
  intros Hg Hu. destruct w as [wv|ps].
  - simpl in Hu. inv_bind Hu. inversion Hu; subst.
    apply scatter_add_spec. exact E.
  - unfold sparse_gather in Hg. inv_bind Hg. inv_bind Hg.
    inversion Hg; subst. cbn [sparse_update fst snd vg_routing] in Hu.
    inv_bind Hu. inversion Hu; subst.
    destruct (div_routing_lengths _ _ _ E) as [Hn Hgl].
    destruct (partitioned_scatter_add_spec _ _ _ _ Hn Hgl E1) as [Hl Hp].
    eexists. split; [reflexivity|]. split; [exact Hl | exact Hp].
Qed.

Lemma sparse_updates_added (ws : list wvar) (fis : list (list Z))
    (gs : list var_gather) (us : list (list R)) (ws' : list wvar) :
  mapM (fun p => sparse_gather (fst p) (snd p)) (combine ws fis) = Ok gs ->
  update_zip sparse_update ws (combine gs us) = Ok ws' ->
  zip_rel (fun old new gu => sparse_slot_added old new (fst gu) (snd gu))
    ws ws' (combine gs us).
Proof.
  revert fis gs us ws'.
  induction ws as [|w ws IH]; intros fis gs us ws' Hg Hu.
  - simpl in Hu. inversion Hu; subst. constructor.
  - destruct fis as [|fi fis].
    + simpl in Hg. inversion Hg; subst. simpl in Hu. inversion Hu; subst.
      constructor.
    + simpl in Hg. inv_bind Hg. inv_bind Hg. inversion Hg; subst.
      destruct us as [|u us].
      * simpl in Hu. inversion Hu; subst. constructor.
      * simpl in Hu. inv_bind Hu. inv_bind Hu. inversion Hu; subst.
        constructor.
        -- apply (sparse_update_spec w fi); assumption.
        -- apply (IH fis); assumption.
Qed.

Lemma combine_app {A B : Type} (a b : list A) (c d : list B) :
  List.length a = List.length c ->
  combine (app a b) (app c d) = app (combine a c) (combine b d).
Proof.
  revert c. induction a as [|x a IH]; intros [|y c] H; simpl in *;
    try discriminate; [reflexivity|]. rewrite IH by lia. reflexivity.
Qed.

Lemma dense_parts_spec (ps : list (list R)) (u : list R) (ps' : list (list R)) :
  list_sum (map (@List.length R) ps) = List.length u ->
  mapM (fun p => assign_add (fst p) (snd p))
       (combine ps (split_sizes u (map (@List.length R) ps))) = Ok ps' ->
  map (@List.length R) ps' = map (@List.length R) ps /\
  List.concat ps' =
    map (fun p => (fst p + snd p)%R) (combine (List.concat ps) u).
Proof.
  revert u ps'. induction ps as [|x ps IH]; intros u ps' Hs H.
  - simpl in H. inversion H; subst. simpl in Hs.
    destruct u; [|discriminate]. split; reflexivity.
  - simpl in H. inv_bind H. inv_bind H. inversion H; subst.
    simpl in Hs.
    unfold assign_add in E.
    rewrite length_firstn in E.
    replace (Nat.min (List.length x) (List.length u)) with (List.length x)
      in E by lia.
    rewrite Nat.eqb_refl in E. inversion E; subst.
    edestruct (IH (skipn (List.length x) u)) as [Hl Hc];
      [rewrite length_skipn; lia | eassumption |].
    simpl. rewrite Hl, Hc. split.
    + f_equal. rewrite length_map, length_combine, length_firstn. lia.
    + assert (Hu : combine (app x (List.concat ps)) u =
                     app (combine x (firstn (List.length x) u))
                         (combine (List.concat ps) (skipn (List.length x) u))).
      { rewrite <- combine_app by (rewrite length_firstn; lia).
        rewrite firstn_skipn. reflexivity. }
      rewrite Hu, map_app. reflexivity.
Qed.

Lemma dense_update_spec (w : wvar) (u : list R) (w' : wvar) :
  dense_update w u = Ok w' -> dense_slot_added w w' u.
Proof.
  intros H. destruct w as [wv|ps]; simpl in H.
  - inv_bind H. inversion H; subst.
    unfold assign_add in E.
    destruct (Nat.eqb (List.length wv) (List.length u)) eqn:El;
      [|discriminate]. apply Nat.eqb_eq in El. inversion E; subst.
    unfold dense_slot_added, concat_var. simpl. rewrite !app_nil_r.
    split; [|split; [lia | reflexivity]].
    rewrite length_map, length_combine. f_equal. lia.
  - inv_bind H. inv_bind H. inversion H; subst.
    unfold tf_split in E.
    destruct (Nat.eqb _ _) eqn:Es; [|discriminate].
    apply Nat.eqb_eq in Es. inversion E; subst.
    destruct (dense_parts_spec _ _ _ Es E0) as [Hl Hc].
    unfold dense_slot_added, concat_var. simpl.
    split; [rewrite Hl; reflexivity|]. split; [|exact Hc].
    rewrite <- Es. clear. induction ps as [|x ps IH]; simpl;
      [reflexivity | rewrite length_app, IH; reflexivity].
Qed.

(** ** Lemmas about the dual-state table and [minimize] *)

Lemma key_eqb_eq (a b : key) : key_eqb a b = true <-> a = b.
Proof.
  destruct a as [a1 a2], b as [b1 b2]. unfold key_eqb. simpl.
  rewrite andb_true_iff, !Z.eqb_eq. split.
  - intros [-> ->]. reflexivity.
  - intros H. inversion H. auto.
Qed.

Lemma table_lookup1_put (t : table) (k : key) (v : dual_state) (k' : key) :
  table_lookup1 (table_put t (k, v)) k' =
  if key_eqb k k' then v else table_lookup1 t k'.
Proof.
  unfold table_lookup1, table_put. simpl. destruct (key_eqb k k'); reflexivity.
Qed.

Lemma fold_put_default (kvs : list (key * dual_state)) (t : table) :
  tbl_default (fold_left table_put kvs t) = tbl_default t.
Proof.
  revert t. induction kvs as [|kv kvs IH]; intros t; simpl;
    [reflexivity | rewrite IH; reflexivity].
Qed.

Lemma fold_put_other (ks : list key) (vs : list dual_state) (t : table)
    (k : key) :
  ~ In k ks ->
  table_lookup1 (fold_left table_put (combine ks vs) t) k = table_lookup1 t k.
Proof.
  revert vs t. induction ks as [|k0 ks IH]; intros [|v0 vs] t Hk; simpl;
    try reflexivity.
  rewrite IH by (intros Hc; apply Hk; right; exact Hc).
  rewrite table_lookup1_put.
  destruct (key_eqb k0 k) eqn:E; [|reflexivity].
  apply key_eqb_eq in E. exfalso. apply Hk. left. exact E.
Qed.

Lemma fold_put_last (ks : list key) (vs : list dual_state) (t : table)
    (j : nat) (k : key) (d : dual_state) :
  List.length ks = List.length vs ->
  nth_error ks j = Some k -> ~ In k (skipn (S j) ks) ->
  table_lookup1 (fold_left table_put (combine ks vs) t) k = nth j vs d.
Proof.
  revert vs t j. induction ks as [|k0 ks IH]; intros [|v0 vs] t j Hl Hj Hk;
    simpl in *; try discriminate; [destruct j; discriminate|].
  destruct j as [|j].
  - inversion Hj; subst. rewrite fold_put_other by exact Hk.
    rewrite table_lookup1_put. destruct (key_eqb k k) eqn:E; [reflexivity|].
    exfalso. rewrite (proj2 (key_eqb_eq k k) eq_refl) in E. discriminate.
  - apply IH; [lia | exact Hj | exact Hk].
Qed.

Lemma table_insert_spec (t : table) (ks : list key) (vs : list dual_state)
    (t' : table) :
  table_insert t ks vs = Ok t' ->
  List.length vs = List.length ks /\
  tbl_default t' = tbl_default t /\
  (forall j k, nth_error ks j = Some k -> ~ In k (skipn (S j) ks) ->
     table_lookup1 t' k = nth j vs (0, 0, 0, 0)%R) /\
  (forall k, ~ In k ks -> table_lookup1 t' k = table_lookup1 t k).
Proof.
  unfold table_insert. destruct (Nat.eqb _ _) eqn:El; [|discriminate].
  apply Nat.eqb_eq in El. intros H. inversion H; subst.
  split; [lia|]. split; [apply fold_put_default|]. split.
  - intros j k Hj Hk. apply fold_put_last; assumption.
  - intros k Hk. apply fold_put_other. exact Hk.
Qed.

Lemma as_strs_ok (v : pyval) (ss : list string) :
  as_strs v = Ok ss -> v = PTensor (TStrs ss).
Proof.
  destruct v as [| | | | |[| |]| |]; simpl; intros H; try discriminate.
  inversion H. reflexivity.
Qed.

Lemma minimize_inputs_spec (f : string -> key) (m : model) (pr : prepared) :
  minimize_inputs f m = Ok pr ->
  exists ids,
    getitem (m_examples m) "example_ids" = Ok (PTensor (TStrs ids)) /\
    pr_hashed pr = map f ids /\
    op_example_state_data (pr_inputs pr) = table_lookup (m_table m) (map f ids) /\
    mapM (fun p => sparse_gather (fst p) (snd p))
      (combine (m_slot_sparse m) (op_sparse_feature_indices (pr_inputs pr)))
      = Ok (pr_gathers pr) /\
    op_sparse_indices (pr_inputs pr) = map vg_sparse_idx (pr_gathers pr) /\
    op_sparse_weights (pr_inputs pr) = map vg_weights (pr_gathers pr) /\
    op_dense_weights (pr_inputs pr) = map concat_var (m_slot_dense m).
Proof.
  unfold minimize_inputs. intros H.
  repeat inv_bind H. inversion H; subst. clear H.
  match goal with Hs : as_strs _ = Ok _ |- _ => apply as_strs_ok in Hs end.
  subst. eexists. cbn.
  repeat split; first [reflexivity | eassumption].
Qed.

Lemma minimize_spec (f : string -> key) (o : op_inputs -> res op_outputs)
    (m : model) (gs : option Z) (m' : model) (gs' : option Z) :
  minimize f o m gs = Ok (m', gs') ->
  exists pr out ss ds tbl,
    minimize_inputs f m = Ok pr /\
    o (pr_inputs pr) = Ok out /\
    table_insert (m_table m) (pr_hashed pr) (out_esu out) = Ok tbl /\
    update_zip sparse_update (m_slot_sparse m)
      (combine (pr_gathers pr) (out_sfw out)) = Ok ss /\
    update_zip dense_update (m_slot_dense m) (out_dfw out) = Ok ds /\
    m' = set_slots_table m ss ds tbl /\
    gs' = option_map (fun g => wrap_int64 (g + 1)) gs.
Proof.
  unfold minimize. intros H.
  repeat inv_bind H. inversion H; subst.
  do 5 eexists. repeat split; eassumption.
Qed.

Lemma SDCAModel_init_table (examples variables options : pydict) (m : model) :
  SDCAModel_init examples variables options = Ok m ->
  m_table m = table_new (0, 0, 0, 0)%R /\ all_partitions m <> [].
Proof.
  unfold SDCAModel_init. intros H.
  repeat inv_bind H. inversion H; subst. split; [reflexivity|].
  unfold approximate_duality_gap in E12. cbn zeta in E12.
  destruct (fold_right ds_add _ _) as [[[? ?] ?] ?].
  inv_bind E12. unfold _l1_loss in E13. inv_bind E13.
  intros Hn. rewrite Hn in E14. discriminate.
Qed.

(** Every op but [update_weights] leaves the user-provided weight variables
    as they are. *)
Lemma run_op_frame (f : string -> key) (o : op_inputs -> res op_outputs)
    (s s' : model * option Z) (op : model_op) :
  run_op f o s op = Ok s' -> op <> RunUpdateWeights ->
  m_sparse_w (fst s') = m_sparse_w (fst s) /\
  m_dense_w (fst s') = m_dense_w (fst s).
Proof.
  destruct s as [m gs]. intros H Hop.
  destruct op; simpl in H; try (inv_bind H; inversion H; subst; auto; fail).
  - destruct s' as [m' gs']. apply minimize_spec in H.
    destruct H as (pr & out & ss & ds & tbl & _ & _ & _ & _ & _ & Hm & _).
    subst. split; reflexivity.
  - congruence.
Qed.

Lemma run_ops_frame (f : string -> key) (o : op_inputs -> res op_outputs)
    (os : list model_op) (s s' : model * option Z) :
  run_ops f o s os = Ok s' -> ~ In RunUpdateWeights os ->
  m_sparse_w (fst s') = m_sparse_w (fst s) /\
  m_dense_w (fst s') = m_dense_w (fst s).
Proof.
  unfold run_ops. revert s. induction os as [|op os IH]; intros s H Hn.
  - simpl in H. inversion H; subst. split; reflexivity.
  - simpl in H. inv_bind H.
    destruct (run_op_frame f o s _ op E) as [H1 H2];
      [intros Hc; apply Hn; left; congruence|].
    destruct (IH _ H) as [H3 H4]; [intros Hc; apply Hn; right; exact Hc|].
    split; congruence.
Qed.

(** ** C2: one training step *)

(** C2 (as stated, refuted): the sequence of the claim is not all that
    [minimize] does: given a [global_step] variable (here holding 0), the
    step also increments it (to 1) after the updates. *)
Lemma C2_counterexample :
  let m := model_of (ex_sparse (Some [1%R])) vars_one
             (opts_loss "squared_loss" 1 0) in
  minimize fprint_ex optimizer_ex m (Some 0%Z) =
    Ok (fst (ok_or (m, None) (minimize fprint_ex optimizer_ex m (Some 0%Z))),
        Some 1%Z).
Proof. vm_compute. reflexivity. Qed.

(** C2 (amended): a successful [minimize] step hashes the batch's
    example_ids with [sdca_fprint], looks the dual state of those hashed ids
    up in the table, calls the optimizer op once with the features, labels,
    example weights, the current slot weights gathered at the batch's
    feature ids, the current dense slots and that dual state, inserts the
    returned example-state update into the table under the same hashed ids,
    adds the returned deltas to the unshrunk slots (scatter_add for sparse,
    assign_add for dense slots), leaves the user-provided weight variables,
    the examples and the options as they are, and, when a [global_step] is
    given, increments it by one with int64 wrap-around. *)
Theorem C2_minimize_sequence (f : string -> key)
    (o : op_inputs -> res op_outputs) (m : model) (gs : option Z)
    (m' : model) (gs' : option Z) :
  minimize f o m gs = Ok (m', gs') ->
  exists ids pr out,
    getitem (m_examples m) "example_ids" = Ok (PTensor (TStrs ids)) /\
    minimize_inputs f m = Ok pr /\
    pr_hashed pr = map f ids /\
    op_example_state_data (pr_inputs pr) = table_lookup (m_table m) (map f ids) /\
    mapM (fun p => sparse_gather (fst p) (snd p))
      (combine (m_slot_sparse m) (op_sparse_feature_indices (pr_inputs pr)))
      = Ok (pr_gathers pr) /\
    op_sparse_weights (pr_inputs pr) = map vg_weights (pr_gathers pr) /\
    op_dense_weights (pr_inputs pr) = map concat_var (m_slot_dense m) /\
    o (pr_inputs pr) = Ok out /\
    table_insert (m_table m) (map f ids) (out_esu out) = Ok (m_table m') /\
    zip_rel (fun old new gu => sparse_slot_added old new (fst gu) (snd gu))
      (m_slot_sparse m) (m_slot_sparse m') (combine (pr_gathers pr) (out_sfw out)) /\
    zip_rel dense_slot_added (m_slot_dense m) (m_slot_dense m') (out_dfw out) /\
    m_sparse_w m' = m_sparse_w m /\ m_dense_w m' = m_dense_w m /\
    m_examples m' = m_examples m /\ m_options m' = m_options m /\
    gs' = option_map (fun g => wrap_int64 (g + 1)) gs.
Proof.
  intros H. apply minimize_spec in H.
  destruct H as (pr & out & ss & ds & tbl & Hin & Ho & Ht & Hs & Hd & Hm & Hg).
  destruct (minimize_inputs_spec _ _ _ Hin)
    as (ids & Hid & Hh & Hst & Hga & Hsi & Hsw & Hdw).
  exists ids, pr, out. subst m'. cbn.
  rewrite Hh in Ht.
  repeat split; try assumption.
  - apply (sparse_updates_added _ _ _ _ _ Hga Hs).
  - apply (update_zip_rel dense_update); [apply dense_update_spec | exact Hd].
Qed.

Lemma C2_minimize_sequence_witness :
  let m := model_of (ex_sparse (Some [1%R])) vars_one
             (opts_loss "squared_loss" 1 0) in
  let m' := fst (ok_or (m, None) (minimize fprint_ex optimizer_ex m None)) in
  exists ids pr out,
    getitem (m_examples m) "example_ids" = Ok (PTensor (TStrs ids)) /\
    minimize_inputs fprint_ex m = Ok pr /\
    pr_hashed pr = map fprint_ex ids /\
    op_example_state_data (pr_inputs pr) =
      table_lookup (m_table m) (map fprint_ex ids) /\
    mapM (fun p => sparse_gather (fst p) (snd p))
      (combine (m_slot_sparse m) (op_sparse_feature_indices (pr_inputs pr)))
      = Ok (pr_gathers pr) /\
    op_sparse_weights (pr_inputs pr) = map vg_weights (pr_gathers pr) /\
    op_dense_weights (pr_inputs pr) = map concat_var (m_slot_dense m) /\
    optimizer_ex (pr_inputs pr) = Ok out /\
    table_insert (m_table m) (map fprint_ex ids) (out_esu out) =
      Ok (m_table m') /\
    zip_rel (fun old new gu => sparse_slot_added old new (fst gu) (snd gu))
      (m_slot_sparse m) (m_slot_sparse m') (combine (pr_gathers pr) (out_sfw out)) /\
    zip_rel dense_slot_added (m_slot_dense m) (m_slot_dense m') (out_dfw out) /\
    m_sparse_w m' = m_sparse_w m /\ m_dense_w m' = m_dense_w m /\
    m_examples m' = m_examples m /\ m_options m' = m_options m /\
    None = option_map (fun g => wrap_int64 (g + 1)) (@None Z).
Proof.
  intros m m'.
  apply (C2_minimize_sequence fprint_ex optimizer_ex m None m' None).
  vm_compute. reflexivity.
Defined.

(** ** C4: the dual-state store *)

(** C4: the table of a new model maps every hashed example id to the
    default (0, 0, 0, 0); a [minimize] step looks the batch's hashed ids up
    in the table and passes that dual state to the op; afterwards the table
    keeps its default, holds for each processed hashed id the op's
    example-state update at that id's position (the last position when an
    id repeats in the batch), keeps every other id's entry, and the next
    step's lookup reads this table. *)
Theorem C4_dual_state_store (f : string -> key)
    (o : op_inputs -> res op_outputs) (examples variables options : pydict)
    (m0 m m' : model) (gs gs' : option Z) :
  SDCAModel_init examples variables options = Ok m0 ->
  minimize f o m gs = Ok (m', gs') ->
  (forall k, table_lookup1 (m_table m0) k = (0, 0, 0, 0)%R) /\
  exists ids pr out,
    getitem (m_examples m) "example_ids" = Ok (PTensor (TStrs ids)) /\
    minimize_inputs f m = Ok pr /\
    op_example_state_data (pr_inputs pr) =
      map (table_lookup1 (m_table m)) (map f ids) /\
    o (pr_inputs pr) = Ok out /\
    List.length (out_esu out) = List.length ids /\
    tbl_default (m_table m') = tbl_default (m_table m) /\
    (forall j k, nth_error (map f ids) j = Some k ->
       ~ In k (skipn (S j) (map f ids)) ->
       table_lookup1 (m_table m') k = nth j (out_esu out) (0, 0, 0, 0)%R) /\
    (forall k, ~ In k (map f ids) ->
       table_lookup1 (m_table m') k = table_lookup1 (m_table m) k) /\
    (forall m2 pr2, m_table m2 = m_table m' -> minimize_inputs f m2 = Ok pr2 ->
       op_example_state_data (pr_inputs pr2) =
         map (table_lookup1 (m_table m')) (pr_hashed pr2)).
Proof.
  intros Hinit H. split.
  - destruct (SDCAModel_init_table _ _ _ _ Hinit) as [Ht _].
    intros k. rewrite Ht. reflexivity.
  - apply minimize_spec in H.
    destruct H as (pr & out & ss & ds & tbl & Hin & Ho & Ht & _ & _ & Hm & _).
    destruct (minimize_inputs_spec _ _ _ Hin)
      as (ids & Hid & Hh & Hst & _ & _ & _ & _).
    subst m'. cbn. rewrite Hh in Ht.
    destruct (table_insert_spec _ _ _ _ Ht) as (Hl & Hdef & Hlast & Hoth).
    exists ids, pr, out.
    rewrite length_map in Hl.
    repeat split; try assumption.
    intros m2 pr2 Hm2 Hin2.
    destruct (minimize_inputs_spec _ _ _ Hin2)
      as (ids2 & _ & Hh2 & Hst2 & _ & _ & _ & _).
    rewrite Hst2, Hh2, Hm2. reflexivity.
Qed.

Lemma C4_dual_state_store_witness :
  let m := model_of (ex_sparse (Some [1%R])) vars_one
             (opts_loss "squared_loss" 1 0) in
  let m' := fst (ok_or (m, None) (minimize fprint_ex optimizer_ex m None)) in
  (forall k, table_lookup1 (m_table m) k = (0, 0, 0, 0)%R) /\
  exists ids pr out,
    getitem (m_examples m) "example_ids" = Ok (PTensor (TStrs ids)) /\
    minimize_inputs fprint_ex m = Ok pr /\
    op_example_state_data (pr_inputs pr) =
      map (table_lookup1 (m_table m)) (map fprint_ex ids) /\
    optimizer_ex (pr_inputs pr) = Ok out /\
    List.length (out_esu out) = List.length ids /\
    tbl_default (m_table m') = tbl_default (m_table m) /\
    (forall j k, nth_error (map fprint_ex ids) j = Some k ->
       ~ In k (skipn (S j) (map fprint_ex ids)) ->
       table_lookup1 (m_table m') k = nth j (out_esu out) (0, 0, 0, 0)%R) /\
    (forall k, ~ In k (map fprint_ex ids) ->
       table_lookup1 (m_table m') k = table_lookup1 (m_table m) k) /\
    (forall m2 pr2, m_table m2 = m_table m' ->
       minimize_inputs fprint_ex m2 = Ok pr2 ->
       op_example_state_data (pr_inputs pr2) =
         map (table_lookup1 (m_table m')) (pr_hashed pr2)).
Proof.
  intros m m'.
  apply (C4_dual_state_store fprint_ex optimizer_ex
           (ex_sparse (Some [1%R])) vars_one (opts_loss "squared_loss" 1 0)
           m m m' None None).
  - vm_compute. reflexivity.
  - vm_compute. reflexivity.
Defined.

(** ** C7: minimize only adds to the slots *)

(** C7: a successful [minimize] step leaves every user-provided weight
    variable (sparse_features_weights and dense_features_weights) as it is,
    changes the unshrunk slots only by adding the op's deltas (scatter_add
    at the batch's feature ids for sparse slots, assign_add for dense
    slots), and any further run of graph ops that does not include
    [update_weights] leaves the user-provided variables as they were. *)
Theorem C7_minimize_frame (f : string -> key)
    (o : op_inputs -> res op_outputs) (m : model) (gs : option Z)
    (m' : model) (gs' : option Z) :
  minimize f o m gs = Ok (m', gs') ->
  m_sparse_w m' = m_sparse_w m /\ m_dense_w m' = m_dense_w m /\
  (exists pr out,
     minimize_inputs f m = Ok pr /\ o (pr_inputs pr) = Ok out /\
     zip_rel (fun old new gu => sparse_slot_added old new (fst gu) (snd gu))
       (m_slot_sparse m) (m_slot_sparse m')
       (combine (pr_gathers pr) (out_sfw out)) /\
     zip_rel dense_slot_added (m_slot_dense m) (m_slot_dense m') (out_dfw out)) /\
  (forall os m2 gs2, run_ops f o (m', gs') os = Ok (m2, gs2) ->
     ~ In RunUpdateWeights os ->
     m_sparse_w m2 = m_sparse_w m /\ m_dense_w m2 = m_dense_w m).
Proof.
  intros H. pose proof H as H0. apply minimize_spec in H.
  destruct H as (pr & out & ss & ds & tbl & Hin & Ho & Ht & Hs & Hd & Hm & _).
  destruct (minimize_inputs_spec _ _ _ Hin)
    as (ids & _ & _ & _ & Hga & _ & _ & _).
  assert (Hv : m_sparse_w m' = m_sparse_w m /\ m_dense_w m' = m_dense_w m)
    by (subst m'; split; reflexivity).
  destruct Hv as [Hv1 Hv2].
  split; [exact Hv1|]. split; [exact Hv2|]. split.
  - exists pr, out. subst m'. cbn.
    split; [exact Hin|]. split; [exact Ho|]. split.
    + apply (sparse_updates_added _ _ _ _ _ Hga Hs).
    + apply (update_zip_rel dense_update); [apply dense_update_spec | exact Hd].
  - intros os m2 gs2 Hr Hn.
    destruct (run_ops_frame f o os _ _ Hr Hn) as [H1 H2]. cbn in H1, H2.
    split; congruence.
Qed.

Lemma C7_minimize_frame_witness :
  let m := model_of (ex_sparse (Some [1%R])) vars_one
             (opts_loss "squared_loss" 1 0) in
  let m' := fst (ok_or (m, None) (minimize fprint_ex optimizer_ex m None)) in
  m_sparse_w m' = m_sparse_w m /\ m_dense_w m' = m_dense_w m /\
  (exists pr out,
     minimize_inputs fprint_ex m = Ok pr /\ optimizer_ex (pr_inputs pr) = Ok out /\
     zip_rel (fun old new gu => sparse_slot_added old new (fst gu) (snd gu))
       (m_slot_sparse m) (m_slot_sparse m')
       (combine (pr_gathers pr) (out_sfw out)) /\
     zip_rel dense_slot_added (m_slot_dense m) (m_slot_dense m') (out_dfw out)) /\
  (forall os m2 gs2, run_ops fprint_ex optimizer_ex (m', None) os = Ok (m2, gs2) ->
     ~ In RunUpdateWeights os ->
     m_sparse_w m2 = m_sparse_w m /\ m_dense_w m2 = m_dense_w m).
Proof.
  intros m m'.
  apply (C7_minimize_frame fprint_ex optimizer_ex m None m' None).
  vm_compute. reflexivity.
Defined.

(** ** Lemmas about [update_weights] and the losses *)

Lemma update_zip_assign (vs svs : list (list R)) :
  map (@List.length R) vs = map (@List.length R) svs ->
  update_zip assign vs svs = Ok svs.
Proof.
  revert svs. induction vs as [|v vs IH]; intros [|sv svs] H;
    simpl in *; try discriminate; [reflexivity|].
  inversion H as [[Hl Hr]]. unfold assign. rewrite Hl, Nat.eqb_refl.
  cbn [bind]. rewrite IH by exact Hr. reflexivity.
Qed.

Lemma assign_var_same (var slot_var : wvar) :
  var_shape var = var_shape slot_var -> assign_var var slot_var = Ok slot_var.
Proof.
  unfold assign_var.
  destruct var as [v|ps], slot_var as [sv|sps]; simpl; intros H;
    try discriminate; inversion H as [Hl].
  - unfold assign. rewrite Hl, Nat.eqb_refl. reflexivity.
  - rewrite update_zip_assign by exact Hl. reflexivity.
Qed.

Lemma update_zip_assign_var (vars slots : list wvar) :
  map var_shape vars = map var_shape slots ->
  update_zip assign_var vars slots = Ok slots.
Proof.
  revert slots. induction vars as [|v vars IH]; intros [|s slots] H;
    simpl in *; try discriminate; [reflexivity|].
  inversion H as [[Hv Hr]]. rewrite assign_var_same by exact Hv.
  cbn [bind]. rewrite IH by exact Hr. reflexivity.
Qed.

Lemma fold_left_Rplus (xs : list R) (a : R) :
  fold_left Rplus xs a = (a + reduce_sum xs)%R.
Proof.
  revert a. induction xs as [|x xs IH]; intros a; simpl; [ring|].
  rewrite IH. ring.
Qed.

Lemma add_n_nonempty (xs : list R) :
  xs <> [] -> add_n xs = Ok (reduce_sum xs).
Proof.
  destruct xs as [|x xs]; intros H; [congruence|].
  simpl. rewrite fold_left_Rplus. reflexivity.
Qed.

Lemma reduce_sum_app (a b : list R) :
  reduce_sum (app a b) = (reduce_sum a + reduce_sum b)%R.
Proof. induction a as [|x a IH]; simpl; [ring | rewrite IH; ring]. Qed.

Lemma reduce_sum_concat (ls : list (list R)) :
  reduce_sum (List.concat ls) = reduce_sum (map reduce_sum ls).
Proof.
  induction ls as [|l ls IH]; simpl; [reflexivity|].
  rewrite reduce_sum_app, IH. reflexivity.
Qed.

Lemma sum_over_partitions (g : R -> R) (ps : list (list R)) :
  reduce_sum (map (fun w => reduce_sum (map g w)) ps) =
  reduce_sum (map g (List.concat ps)).
Proof.
  rewrite concat_map, reduce_sum_concat, map_map. reflexivity.
Qed.

Lemma as_vec_ok (v : pyval) (xs : list R) :
  as_vec v = Ok xs -> v = PTensor (TVec xs).
Proof.
  destruct v as [| | | | |[| |]| |]; simpl; intros H; try discriminate.
  inversion H. reflexivity.
Qed.

(** ** C1: the proximal step *)

(** C1: whatever [train_op] did to the model, if afterwards each
    user-provided weight variable has the shape of its unshrunk slot (as
    [_create_slots] makes them, and as [minimize] keeps them), then
    [update_weights] copies every slot into its variable and, when
    symmetric_l1_regularization > 0, replaces every component v by
    sign(v) * max(0, |v| - l1 / l2); when symmetric_l1_regularization = 0
    the variables are the copied slots, unshrunk.  Nothing else of the
    model changes. *)
Theorem C1_update_weights_proximal_step {X : Type}
    (train_op : model -> res (model * X)) (m m1 : model) (x : X) :
  train_op m = Ok (m1, x) ->
  map var_shape (m_sparse_w m1) = map var_shape (m_slot_sparse m1) ->
  map var_shape (m_dense_w m1) = map var_shape (m_slot_dense m1) ->
  let l1 := _symmetric_l1_regularization m in
  let l2 := _symmetric_l2_regularization m in
  ((0 < m_l1 m)%Q ->
   update_weights train_op m =
     Ok (set_vars m1
           (map (map_var (map (fun v => tf_sign v * Rmax 0 (Rabs v - l1 / l2))%R))
                (m_slot_sparse m1))
           (map (map_var (map (fun v => tf_sign v * Rmax 0 (Rabs v - l1 / l2))%R))
                (m_slot_dense m1)), x)) /\
  ((m_l1 m == 0)%Q ->
   update_weights train_op m =
     Ok (set_vars m1 (m_slot_sparse m1) (m_slot_dense m1), x)).
Proof.
  intros Ht Hs Hd l1 l2.
  unfold update_weights. rewrite Ht. cbn [bind].
  rewrite (update_zip_assign_var _ _ Hs), (update_zip_assign_var _ _ Hd).
  cbn [bind]. split.
  - intros Hp. rewrite Qle_bool_false by exact Hp. reflexivity.
  - intros Hz.
    assert (Hb : Qle_bool (m_l1 m) 0 = true).
    { apply Qle_bool_iff. rewrite Hz. apply Qle_refl. }
    rewrite Hb. reflexivity.
Qed.

Lemma C1_update_weights_proximal_step_witness :
  let m := model_of (ex_sparse (Some [1%R])) vars_one
             (opts_loss "squared_loss" 1 1) in
  let train_op := fun m0 => minimize fprint_ex optimizer_ex m0 None in
  let m1 := fst (ok_or (m, None) (train_op m)) in
  let l1 := _symmetric_l1_regularization m in
  let l2 := _symmetric_l2_regularization m in
  update_weights train_op m =
    Ok (set_vars m1
          (map (map_var (map (fun v => tf_sign v * Rmax 0 (Rabs v - l1 / l2))%R))
               (m_slot_sparse m1))
          (map (map_var (map (fun v => tf_sign v * Rmax 0 (Rabs v - l1 / l2))%R))
               (m_slot_dense m1)), None).
Proof.
  intros m train_op m1 l1 l2.
  apply (C1_update_weights_proximal_step train_op m m1 None).
  - vm_compute. reflexivity.
  - vm_compute. reflexivity.
  - vm_compute. reflexivity.
  - vm_compute. reflexivity.
Defined.

(** ** C9: predictions *)

(** C9 (code bug): the class documents missing feature values as 1.0f, and
    [minimize] accepts a column without values (it passes no values to the
    op for it); [predictions] on the same examples raises ValueError,
    because [_linear_predictions] multiplies by [feature_values] = None.
    With the values given as 1.0 the logistic model predicts sigmoid(w * x)
    = sigmoid(1). *)
Theorem C9_predictions_missing_feature_values :
  let options := opts_loss "logistic_loss" 1 0 in
  let m := model_of (ex_sparse None) vars_one options in
  SDCAModel_init (ex_sparse None) vars_one options = Ok m /\
  (forall f, exists pr, minimize_inputs f m = Ok pr /\
     op_sparse_feature_values (pr_inputs pr) = []) /\
  predictions m (ex_sparse None) = Err ValueError /\
  exists v, predictions m (ex_sparse (Some [1%R])) = Ok [v] /\ v = sigmoid 1.
Proof.
  intros options m. split; [|split; [|split]].
  - vm_compute. reflexivity.
  - intros f. eexists. split; [cbv; reflexivity | reflexivity].
  - vm_compute. reflexivity.
  - eexists. split; [cbv -[exp]; reflexivity|].
    unfold sigmoid. pose proof (exp_pos (Ropp 1)).
    replace (R0 + (R1 * R1 + R0))%R with 1%R by ring.
    field. lra.
Qed.

(** ** C10: the regularized loss *)

(** C10: for every model with at least one weight partition (every model
    the constructor returns) and every examples input on which
    [unregularized_loss] succeeds, [regularized_loss] equals the
    unregularized loss plus (l1 * sum |w| + l2 * sum w^2 / 2) divided by
    the sum of the example weights, the sums running over all components
    of the user-provided weight variables. *)
Theorem C10_regularized_loss_decomposition (m : model) (examples : pydict)
    (u : R) :
  all_partitions m <> [] ->
  unregularized_loss m examples = Ok u ->
  exists weights,
    getitem examples "example_weights" = Ok (PTensor (TVec weights)) /\
    regularized_loss m examples =
      Ok (u + (Q2R (m_l1 m) * reduce_sum (map Rabs (List.concat (all_partitions m)))
               + Q2R (m_l2 m) *
                 reduce_sum (map (fun w => w * w) (List.concat (all_partitions m))) / 2)
              / reduce_sum weights)%R.
Proof.
  intros Hp Hu. pose proof Hu as Hu0. unfold unregularized_loss in Hu.
  inv_bind Hu. inv_bind Hu. inv_bind Hu. inv_bind Hu. inv_bind Hu.
  inv_bind Hu. inv_bind Hu.
  apply as_vec_ok in E5. subst. eexists. split; [reflexivity|].
  unfold regularized_loss. rewrite E, E0. cbn [bind].
  rewrite E4. cbn [bind as_vec].
  unfold _l1_loss, _l2_loss.
  rewrite !add_n_nonempty by (intros Hc; apply map_eq_nil in Hc; contradiction).
  cbn [bind]. rewrite Hu0. cbn [bind].
  rewrite !sum_over_partitions.
  unfold _symmetric_l1_regularization, _symmetric_l2_regularization.
  f_equal. ring.
Qed.

Lemma C10_regularized_loss_decomposition_witness :
  let m := model_of (ex_sparse (Some [1%R])) vars_one
             (opts_loss "squared_loss" 1 1) in
  let u := ok_or 0%R (unregularized_loss m (ex_sparse (Some [1%R]))) in
  exists weights,
    getitem (ex_sparse (Some [1%R])) "example_weights" =
      Ok (PTensor (TVec weights)) /\
    regularized_loss m (ex_sparse (Some [1%R])) =
      Ok (u + (Q2R (m_l1 m) * reduce_sum (map Rabs (List.concat (all_partitions m)))
               + Q2R (m_l2 m) *
                 reduce_sum (map (fun w => w * w) (List.concat (all_partitions m))) / 2)
              / reduce_sum weights)%R.
Proof.
  intros m u.
  apply (C10_regularized_loss_decomposition m (ex_sparse (Some [1%R])) u).
  - vm_compute. discriminate.
  - vm_compute. reflexivity.
Defined.

(* ================================================================= *)
(** * Further properties of the code *)

(** ** Helpers: shapes through the updates *)

Lemma var_shape_map_var (g : R -> R) (v : wvar) :
  var_shape (map_var (map g) v) = var_shape v.
Proof.
  destruct v as [w|ps]; simpl.
  - rewrite length_map. reflexivity.
  - rewrite map_map. f_equal. apply map_ext. intros a. apply length_map.
Qed.

Lemma map_var_shape_map_var (g : R -> R) (vs : list wvar) :
  map var_shape (map (map_var (map g)) vs) = map var_shape vs.
Proof.
  rewrite map_map. apply map_ext. intros v. apply var_shape_map_var.
Qed.

Lemma var_shape_slot_of (v : wvar) : var_shape (slot_of v) = var_shape v.
Proof.
  destruct v as [w|ps]; simpl; unfold zeros_like.
  - rewrite length_map. reflexivity.
  - rewrite map_map. f_equal. apply map_ext. intros a. apply length_map.
Qed.

Lemma zip_rel_shape {B : Type} (P : wvar -> wvar -> B -> Prop)
    (ws ws' : list wvar) (us : list B) :
  (forall w w' u, P w w' u -> var_shape w' = var_shape w) ->
  zip_rel P ws ws' us -> map var_shape ws' = map var_shape ws.
Proof.
  intros HP H. induction H as [us|ws|w w' ws ws' u us Hw _ IH];
    simpl; [reflexivity | reflexivity |].
  rewrite (HP _ _ _ Hw), IH. reflexivity.
Qed.

Lemma sparse_slot_added_shape (w w' : wvar) (g : var_gather) (u : list R) :
  sparse_slot_added w w' g u -> var_shape w' = var_shape w.
Proof.
  destruct w as [wv|ps], w' as [wv'|ps']; simpl; try contradiction.
  - intros [Hl _]. rewrite Hl. reflexivity.
  - intros (r & _ & Hl & Hp). f_equal.
    apply nth_ext with (d := O) (d' := O); rewrite !length_map; [exact Hl|].
    intros p Hlt.
    rewrite (nth_indep _ O (List.length (@nil R))) by (rewrite length_map; lia).
    rewrite map_nth.
    rewrite (nth_indep _ O (List.length (@nil R))) by (rewrite length_map; lia).
    rewrite map_nth. destruct (Hp p) as [Hq _]; [lia | exact Hq].
Qed.

(** [minimize] keeps the shape of every slot. *)
Lemma minimize_slot_shapes (f : string -> key) (o : op_inputs -> res op_outputs)
    (m : model) (gs : option Z) (m' : model) (gs' : option Z) :
  minimize f o m gs = Ok (m', gs') ->
  map var_shape (m_slot_sparse m') = map var_shape (m_slot_sparse m) /\
  map var_shape (m_slot_dense m') = map var_shape (m_slot_dense m).
Proof.
  intros H. apply minimize_spec in H.
  destruct H as (pr & out & ss & ds & tbl & Hpr & _ & _ & Hss & Hds & Hm & _).
  subst m'. simpl.
  destruct (minimize_inputs_spec f m pr Hpr) as (ids & _ & _ & _ & Hg & _).
  split.
  - eapply zip_rel_shape; [|eapply sparse_updates_added; eassumption].
    intros w w' gu. apply sparse_slot_added_shape.
  - eapply zip_rel_shape;
      [|eapply update_zip_rel; [|exact Hds]; intros w u w'; apply dense_update_spec].
    intros w w' u [Hs _]. exact Hs.
Qed.

Lemma minimize_config (f : string -> key) (o : op_inputs -> res op_outputs)
    (m : model) (gs : option Z) (m' : model) (gs' : option Z) :
  minimize f o m gs = Ok (m', gs') ->
  m_examples m' = m_examples m /\ m_options m' = m_options m /\
  m_loss_type m' = m_loss_type m /\ m_l1 m' = m_l1 m /\ m_l2 m' = m_l2 m /\
  tbl_default (m_table m') = tbl_default (m_table m) /\
  gs' = option_map (fun g => wrap_int64 (g + 1)) gs.
Proof.
  intros H. apply minimize_spec in H.
  destruct H as (pr & out & ss & ds & tbl & _ & _ & Ht & _ & _ & Hm & Hg).
  subst m'. simpl. apply table_insert_spec in Ht.
  destruct Ht as (_ & Hd & _). repeat split; assumption.
Qed.

Lemma update_weights_spec {X : Type} (train_op : model -> res (model * X))
    (m m2 : model) (x : X) :
  update_weights train_op m = Ok (m2, x) ->
  exists m1 sw dw,
    train_op m = Ok (m1, x) /\
    update_zip assign_var (m_sparse_w m1) (m_slot_sparse m1) = Ok sw /\
    update_zip assign_var (m_dense_w m1) (m_slot_dense m1) = Ok dw /\
    let s := (_symmetric_l1_regularization m / _symmetric_l2_regularization m)%R in
    ((0 < m_l1 m)%Q /\
       m2 = set_vars m1 (map (map_var (map (shrink s))) sw)
                        (map (map_var (map (shrink s))) dw) \/
     (m_l1 m <= 0)%Q /\ m2 = set_vars m1 sw dw).
Proof.
  unfold update_weights. intros H. inv_bind H. destruct a as [m1 x1].
  inv_bind H. inv_bind H.
  exists m1, a, a0. destruct (Qle_bool (m_l1 m) 0) eqn:Eq; simpl in H;
    inversion H; subst; repeat split; try assumption.
  - right. split; [apply Qle_bool_iff; exact Eq | reflexivity].
  - left. split; [|reflexivity].
    apply Qnot_le_lt. intros Hc. apply Qle_bool_iff in Hc. congruence.
Qed.

(** One op keeps [shapes_match]. *)
Lemma run_op_shapes (f : string -> key) (o : op_inputs -> res op_outputs)
    (s s' : model * option Z) (op : model_op) :
  shapes_match (fst s) -> run_op f o s op = Ok s' -> shapes_match (fst s').
Proof.
  destruct s as [m gs]. intros [Hs Hd] H. simpl in Hs, Hd.
  destruct op; simpl in H; try (inv_bind H; inversion H; subst; split; assumption).
  - destruct s' as [m' gs']. pose proof (run_op_frame f o (m, gs) (m', gs') RunMinimize H)
      as [Hf1 Hf2]; [discriminate|].
    destruct (minimize_slot_shapes f o m gs m' gs' H) as [Hs' Hd'].
    simpl in *. split; congruence.
  - destruct s' as [m2 gs2]. apply update_weights_spec in H.
    destruct H as (m1 & sw & dw & Ht & Hsw & Hdw & Hm).
    destruct (minimize_slot_shapes f o m gs m1 gs2 Ht) as [Hs' Hd'].
    pose proof (run_op_frame f o (m, gs) (m1, gs2) RunMinimize Ht)
      as [Hf1 Hf2]; [discriminate|]. simpl in Hf1, Hf2.
    rewrite update_zip_assign_var in Hsw by congruence.
    rewrite update_zip_assign_var in Hdw by congruence.
    inversion Hsw; inversion Hdw; subst sw dw. simpl.
    destruct Hm as [[_ ->]|[_ ->]]; unfold shapes_match; simpl;
      rewrite ?map_var_shape_map_var; split; reflexivity.
Qed.

Lemma run_op_config (f : string -> key) (o : op_inputs -> res op_outputs)
    (m : model) (gs : option Z) (m' : model) (gs' : option Z) (op : model_op) :
  run_op f o (m, gs) op = Ok (m', gs') ->
  m_examples m' = m_examples m /\ m_options m' = m_options m /\
  m_loss_type m' = m_loss_type m /\ m_l1 m' = m_l1 m /\ m_l2 m' = m_l2 m /\
  tbl_default (m_table m') = tbl_default (m_table m) /\
  gs' = Nat.iter (train_steps [op]) (option_map (fun g => wrap_int64 (g + 1))) gs.
Proof.
  intros H. destruct op; simpl in H;
    try (inv_bind H; inversion H; subst; simpl;
         repeat split; reflexivity).
  - apply minimize_config in H.
    destruct H as (H1 & H2 & H3 & H4 & H5 & H6 & H7).
    repeat split; assumption.
  - apply update_weights_spec in H.
    destruct H as (m1 & sw & dw & Ht & _ & _ & Hm).
    apply minimize_config in Ht.
    destruct Ht as (H1 & H2 & H3 & H4 & H5 & H6 & H7).
    destruct Hm as [[_ ->]|[_ ->]]; simpl;
      repeat split; assumption.
Qed.

Lemma wrap_int64_small (z : Z) :
  (- 2 ^ 63 <= z < 2 ^ 63)%Z -> wrap_int64 z = z.
Proof.
  intros H. unfold wrap_int64. rewrite Z.mod_small by lia. lia.
Qed.

Lemma wrap_int64_add (a b : Z) :
  wrap_int64 (wrap_int64 a + b) = wrap_int64 (a + b).
Proof.
  unfold wrap_int64.
  replace ((a + 2 ^ 63) mod 2 ^ 64 - 2 ^ 63 + b + 2 ^ 63)%Z
    with ((a + 2 ^ 63) mod 2 ^ 64 + b)%Z by ring.
  rewrite Z.add_mod_idemp_l by lia.
  replace (a + 2 ^ 63 + b)%Z with (a + b + 2 ^ 63)%Z by ring.
  reflexivity.
Qed.

Lemma iter_global_step (n : nat) (g : Z) :
  (- 2 ^ 63 <= g < 2 ^ 63)%Z ->
  Nat.iter n (option_map (fun g => wrap_int64 (g + 1))) (Some g) =
  Some (wrap_int64 (g + Z.of_nat n)).
Proof.
  intros Hg. induction n as [|n IH].
  - simpl. rewrite Z.add_0_r, wrap_int64_small by exact Hg. reflexivity.
  - rewrite Nat.iter_succ, IH. simpl. f_equal.
    rewrite wrap_int64_add. f_equal. lia.
Qed.

Lemma train_steps_cons (op : model_op) (os : list model_op) :
  train_steps (op :: os) = (train_steps os + train_steps [op])%nat.
Proof. destruct op; simpl; lia. Qed.

(** ** The session invariants *)

(** X1: starting from a model the constructor returns, after every
    sequence of ops that succeeds (training steps, [update_weights],
    predictions, losses, the duality gap), each user-provided weight
    variable still has the shape of its unshrunk slot, so
    [update_weights]'s copies never fail on shapes. *)
Theorem session_shapes_match (f : string -> key)
    (o : op_inputs -> res op_outputs) (examples variables options : pydict)
    (m : model) (gs : option Z) (os : list model_op) (s' : model * option Z) :
  SDCAModel_init examples variables options = Ok m ->
  run_ops f o (m, gs) os = Ok s' -> shapes_match (fst s').
Proof.
  intros Hi Hr.
  assert (H0 : shapes_match m).
  { unfold SDCAModel_init in Hi. repeat inv_bind Hi. inversion Hi; subst.
    unfold shapes_match; simpl.
    rewrite !map_map. split; apply map_ext; intros v;
      symmetry; apply var_shape_slot_of. }
  unfold run_ops in Hr. change m with (fst (m, gs)) in H0.
  revert Hr H0. generalize (m, gs). clear Hi.
  induction os as [|op os IH]; intros s Hr Hs; simpl in Hr.
  - inversion Hr; subst. exact Hs.
  - inv_bind Hr. eapply IH; [exact Hr|]. eapply run_op_shapes; eassumption.
Qed.

Lemma session_shapes_match_witness :
  let m := model_of (ex_sparse (Some [1%R])) vars_one
             (opts_loss "squared_loss" 1 1) in
  let os := [RunMinimize; RunUpdateWeights; RunMinimize] in
  let s' := ok_or (m, None) (run_ops fprint_ex optimizer_ex (m, None) os) in
  shapes_match (fst s').
Proof.
  intros m os s'.
  apply (session_shapes_match fprint_ex optimizer_ex (ex_sparse (Some [1%R]))
           vars_one (opts_loss "squared_loss" 1 1) m None os s').
  - vm_compute. reflexivity.
  - vm_compute. reflexivity.
Defined.

(** X2: starting from an int64 value, the optional [global_step] grows by
    exactly one per training step ([minimize] or [update_weights]) and by
    nothing else, with int64 wrap-around; a run without [global_step]
    leaves it absent. *)
Theorem session_global_step (f : string -> key)
    (o : op_inputs -> res op_outputs) (m : model) (gs : option Z)
    (os : list model_op) (m' : model) (gs' : option Z) :
  (forall g, gs = Some g -> (- 2 ^ 63 <= g < 2 ^ 63)%Z) ->
  run_ops f o (m, gs) os = Ok (m', gs') ->
  gs' = option_map (fun g => wrap_int64 (g + Z.of_nat (train_steps os))) gs.
Proof.
  intros Hg H.
  assert (Hit : gs' = Nat.iter (train_steps os)
                        (option_map (fun g => wrap_int64 (g + 1))) gs).
  { unfold run_ops in H. clear Hg. revert m gs H.
    induction os as [|op os IH]; intros m gs H; simpl in H.
    - inversion H; subst. reflexivity.
    - inv_bind H. destruct a as [m1 gs1].
      destruct (run_op_config f o m gs m1 gs1 op E) as (_ & _ & _ & _ & _ & _ & H7).
      rewrite (IH m1 gs1 H), H7, (train_steps_cons op os), Nat.iter_add. reflexivity. }
  rewrite Hit. destruct gs as [g|].
  - apply iter_global_step. apply Hg. reflexivity.
  - clear. induction (train_steps os) as [|n IH]; simpl; [reflexivity|].
    rewrite IH. reflexivity.
Qed.

Lemma session_global_step_witness :
  let m := model_of (ex_sparse (Some [1%R])) vars_one
             (opts_loss "squared_loss" 1 1) in
  let os := [RunMinimize; RunPredictions (ex_sparse (Some [1%R]));
             RunUpdateWeights] in
  let s' := ok_or (m, None)
              (run_ops fprint_ex optimizer_ex (m, Some (2 ^ 63 - 2)%Z) os) in
  snd s' = option_map (fun g => wrap_int64 (g + Z.of_nat (train_steps os)))
             (Some (2 ^ 63 - 2)%Z).
Proof.
  intros m os s'.
  apply (session_global_step fprint_ex optimizer_ex m (Some (2 ^ 63 - 2)%Z) os
           (fst s')).
  - intros g Hg. injection Hg as <-. lia.
  - vm_compute. reflexivity.
Defined.

(** ** Helpers: element-wise ops and sums *)

Lemma tf_binop_in (f : R -> R -> R) (a b c : list R) :
  tf_binop f a b = Ok c ->
  forall z, In z c -> exists x y, In x a /\ In y b /\ z = f x y.
Proof.
  unfold tf_binop. destruct (Nat.eqb _ _); intros H.
  - inversion H; subst. intros z Hz. apply in_map_iff in Hz.
    destruct Hz as [[x y] [<- Hxy]]. exists x, y. simpl.
    split; [eapply in_combine_l | split; [eapply in_combine_r | reflexivity]];
      exact Hxy.
  - intros z Hz.
    assert (Hb : (exists x, a = [x] /\ c = map (fun y => f x y) b) \/
                 (exists y, b = [y] /\ c = map (fun x => f x y) a)).
    { destruct a as [|x [|x' a']]; destruct b as [|y [|y' b']];
        inversion H; subst;
        first [left; eexists; split; reflexivity
              | right; eexists; split; reflexivity]. }
    destruct Hb as [(x & -> & ->) | (y & -> & ->)];
      apply in_map_iff in Hz; destruct Hz as [w [<- Hw]];
      [exists x, w | exists w, y]; simpl; auto.
Qed.

Lemma reduce_sum_nonneg (xs : list R) :
  (forall x, In x xs -> 0 <= x)%R -> (0 <= reduce_sum xs)%R.
Proof.
  induction xs as [|x xs IH]; intros H; simpl; [lra|].
  assert (0 <= x)%R by (apply H; left; reflexivity).
  assert (0 <= reduce_sum xs)%R by (apply IH; intros y Hy; apply H; right; exact Hy).
  lra.
Qed.

Lemma Q2R_nonneg (q : Q) : (0 <= q)%Q -> (0 <= Q2R q)%R.
Proof.
  intros H. apply Qreals.Qle_Rle in H. unfold Q2R at 1 in H. simpl in H.
  rewrite Rmult_0_l in H. exact H.
Qed.

Lemma sigmoid_bounds (x : R) : (0 < sigmoid x < 1)%R.
Proof.
  unfold sigmoid. pose proof (exp_pos (- x)) as He.
  split.
  - apply Rdiv_lt_0_compat; lra.
  - apply (Rmult_lt_reg_r (1 + exp (- x))); [lra|].
    unfold Rdiv. rewrite Rmult_assoc, Rinv_l by lra. lra.
Qed.

Lemma sigmoid_cross_entropy_nonneg (z x : R) :
  (0 <= z <= 1)%R -> (0 <= sigmoid_cross_entropy_with_logits z x)%R.
Proof.
  intros Hz. unfold sigmoid_cross_entropy_with_logits.
  pose proof (exp_pos (- Rabs x)) as He.
  assert (Hl : (0 < ln (1 + exp (- Rabs x)))%R).
  { rewrite <- ln_1. apply ln_increasing; lra. }
  unfold Rmax. destruct (Rle_dec x 0); nra.
Qed.

Lemma getitem_result (d : pydict) (k : string) :
  getitem d k = Err KeyError \/ exists v, getitem d k = Ok v.
Proof.
  unfold getitem. destruct (find _ d) as [[? v]|]; [right; eexists|left];
    reflexivity.
Qed.

(** ** The proximal step, the predictions and the losses *)

(** X3: the proximal step of [update_weights], sign(v) * max(0, |v| - s)
    with a shrinkage s >= 0, sets every component with |v| <= s to exactly
    0 and moves every other component by s towards 0 without changing its
    sign. *)
Theorem shrink_soft_threshold (s v : R) :
  (0 <= s)%R ->
  (Rabs v <= s -> shrink s v = 0)%R /\
  (s < Rabs v -> shrink s v = v - tf_sign v * s /\
                 tf_sign (shrink s v) = tf_sign v)%R.
Proof.
  intros Hs. unfold shrink, tf_sign, Rmax, Rabs.
  repeat match goal with
         | |- context [Rlt_dec ?a ?b] => destruct (Rlt_dec a b)
         | |- context [Rle_dec ?a ?b] => destruct (Rle_dec a b)
         | |- context [Rcase_abs ?a] => destruct (Rcase_abs a)
         end;
    split; intros; try split; try lra.
Qed.

Lemma shrink_soft_threshold_witness :
  (0 <= 1)%R /\
  (Rabs 3 <= 1 -> shrink 1 3 = 0)%R /\
  (1 < Rabs 3 -> shrink 1 3 = 3 - tf_sign 3 * 1 /\
                 tf_sign (shrink 1 3) = tf_sign 3)%R.
Proof.
  split; [lra|]. apply shrink_soft_threshold. lra.
Defined.

(** X4: [predictions] of a logistic_loss model lie in the closed interval
    [0, 1], and those of a poisson_loss model are non-negative (closed
    bounds: in float32 [sigmoid] can round to 0 or 1 and [exp] can
    underflow to 0). *)
Theorem predictions_range (m : model) (ex : pydict) (ps : list R) :
  predictions m ex = Ok ps ->
  (m_loss_type m = "logistic_loss" -> forall p, In p ps -> 0 <= p <= 1)%R /\
  (m_loss_type m = "poisson_loss" -> forall p, In p ps -> 0 <= p)%R.
Proof.
  unfold predictions. intros H. repeat inv_bind H.
  split; intros Hl p Hp; rewrite Hl in H; simpl in H; inversion H; subst;
    apply in_map_iff in Hp; destruct Hp as [x [<- _]].
  - pose proof (sigmoid_bounds x). lra.
  - left. apply exp_pos.
Qed.

Lemma predictions_range_witness :
  let m := model_of (ex_sparse (Some [1%R])) vars_one
             (opts_loss "logistic_loss" 1 0) in
  let ps := ok_or [] (predictions m (ex_sparse (Some [1%R]))) in
  (m_loss_type m = "logistic_loss" -> forall p, In p ps -> 0 <= p <= 1)%R /\
  (m_loss_type m = "poisson_loss" -> forall p, In p ps -> 0 <= p)%R.
Proof.
  intros m ps. apply (predictions_range m (ex_sparse (Some [1%R]))).
  cbv -[exp]. reflexivity.
Defined.

(** X7: [_linear_predictions] zips the sparse feature columns with the
    sparse weight variables, so columns past the number of sparse weight
    variables never affect the predictions or the losses. *)
Theorem linear_predictions_extra_columns (m : model) (ex1 ex2 : pydict)
    (sfl1 sfl2 : list pyval) :
  getitem ex1 "example_ids" = getitem ex2 "example_ids" ->
  getitem ex1 "dense_features" = getitem ex2 "dense_features" ->
  getitem ex1 "sparse_features" = Ok (PList sfl1) ->
  getitem ex2 "sparse_features" = Ok (PList sfl2) ->
  firstn (List.length (m_sparse_w m)) sfl1 =
    firstn (List.length (m_sparse_w m)) sfl2 ->
  _linear_predictions m ex1 = _linear_predictions m ex2.
Proof.
  intros Hi Hd H1 H2 Hf. unfold _linear_predictions.
  rewrite Hi, Hd, H1, H2. cbn [bind as_list].
  rewrite (combine_firstn_r sfl1), (combine_firstn_r sfl2), length_map, Hf.
  reflexivity.
Qed.

Lemma linear_predictions_extra_columns_witness :
  let m := model_of (ex_sparse (Some [1%R])) vars_one
             (opts_loss "squared_loss" 1 0) in
  let col := PSfc (mkSparseFeatureColumn [0%Z] [0%Z] (Some [5%R])) in
  let ex2 := [("example_ids", PTensor (TStrs ["a"]));
              ("sparse_features",
                 PList [PSfc (mkSparseFeatureColumn [0%Z] [1%Z] (Some [1%R]));
                        col]);
              ("dense_features", PList [])] in
  _linear_predictions m (ex_sparse (Some [1%R])) = _linear_predictions m ex2.
Proof.
  intros m col ex2.
  apply (linear_predictions_extra_columns m _ _
           [PSfc (mkSparseFeatureColumn [0%Z] [1%Z] (Some [1%R]))]
           [PSfc (mkSparseFeatureColumn [0%Z] [1%Z] (Some [1%R])); col]);
    vm_compute; reflexivity.
Defined.

(** ** The checks on None entries *)

Lemma assert_specified_prefix (pre post : list string) (x : string)
    (d : pydict) :
  (forall y, In y pre -> exists v, getitem d y = Ok v /\ v <> PNone) ->
  _assert_specified (app pre (x :: post)) d = _assert_specified (x :: post) d.
Proof.
  induction pre as [|y pre IH]; intros H; [reflexivity|].
  destruct (H y (or_introl eq_refl)) as [v [Hv Hn]].
  cbn [app _assert_specified]. rewrite Hv. cbn [bind].
  destruct v; [congruence| ..];
    apply IH; intros z Hz; apply H; right; exact Hz.
Qed.

(** X8: [_assert_specified] succeeds exactly when every item is present and
    not None.  It never raises the ValueError it builds a message for: the
    first item that is missing or None decides the error, KeyError for a
    missing item and TypeError for a None item, since the message adds None
    to a string. *)
Theorem assert_specified_outcomes (items : list string) (d : pydict) :
  ((_assert_specified items d = Ok tt <->
      forall x, In x items -> exists v, getitem d x = Ok v /\ v <> PNone) /\
   (_assert_specified items d = Err TypeError ->
      exists x, In x items /\ getitem d x = Ok PNone) /\
   _assert_specified items d <> Err ValueError) /\
  (forall (pre : list string) (x : string) (post : list string),
     items = app pre (x :: post) ->
     (forall y, In y pre -> exists v, getitem d y = Ok v /\ v <> PNone) ->
     (getitem d x = Err KeyError -> _assert_specified items d = Err KeyError) /\
     (getitem d x = Ok PNone -> _assert_specified items d = Err TypeError)).
Proof.
  split.
  { induction items as [|x xs IH]; simpl.
    - split; [split; [intros _ y [] | intros _; reflexivity]|].
      split; discriminate.
    - destruct IH as (I1 & I2 & I3).
      destruct (getitem_result d x) as [Hk | [v Hv]].
      + rewrite Hk. cbn [bind]. split; [split|split]; try discriminate.
        intros H. destruct (H x (or_introl eq_refl)) as [v [Hv _]]. congruence.
      + rewrite Hv. cbn [bind]. destruct v.
        1: { split; [split|split].
             - discriminate.
             - intros H. destruct (H x (or_introl eq_refl)) as [v' [Hv' Hn]].
               congruence.
             - intros _. exists x. split; [left; reflexivity | exact Hv].
             - discriminate. }
        all: split; [split|split].
        all: try (intros H y [<-|Hy];
                  [eexists; split; [exact Hv | discriminate]
                  | apply I1; assumption]).
        all: try (intros H; apply I1; intros y Hy; apply H; right; exact Hy).
        all: try (intros H; destruct (I2 H) as [y [Hy Hy']];
                  exists y; split; [right; exact Hy | exact Hy']).
        all: exact I3. }
  intros pre x post -> Hpre.
  rewrite (assert_specified_prefix pre post x d Hpre).
  cbn [_assert_specified].
  split; intros Hx; rewrite Hx; reflexivity.
Qed.

Lemma assert_specified_outcomes_witness :
  _assert_specified ["a"; "b"; "c"] [("a", PNum 1%Q); ("b", PNone)]
    = Err TypeError /\
  _assert_specified ["a"; "b"; "c"] [("a", PNum 1%Q)] = Err KeyError.
Proof.
  split.
  - apply (proj2 (proj2 (assert_specified_outcomes ["a"; "b"; "c"]
                           [("a", PNum 1%Q); ("b", PNone)])
                   ["a"] "b" ["c"] eq_refl
                   ltac:(intros y [<- | []]; eexists;
                         split; [reflexivity | discriminate]))).
    reflexivity.
  - apply (proj1 (proj2 (assert_specified_outcomes ["a"; "b"; "c"]
                           [("a", PNum 1%Q)])
                   ["a"] "b" ["c"] eq_refl
                   ltac:(intros y [<- | []]; eexists;
                         split; [reflexivity | discriminate]))).
    reflexivity.
Defined.

(** X9: the constructor raises TypeError, not ValueError, when the
    examples' [example_labels] entry is None (once the emptiness and
    loss-type checks that precede it pass). *)
Theorem init_none_example_labels (examples variables options : pydict) :
  check_nonempty examples variables options = Ok tt ->
  check_loss_type options = Ok tt ->
  getitem examples "example_labels" = Ok PNone ->
  SDCAModel_init examples variables options = Err TypeError.
Proof.
  intros H1 H2 H3. unfold SDCAModel_init, init_checks.
  rewrite H1, H2. cbn [bind]. unfold check_specified_all.
  cbn [_assert_specified]. rewrite H3. reflexivity.
Qed.

Lemma init_none_example_labels_witness :
  let examples := [("example_labels", PNone);
                   ("example_weights", PTensor (TVec [1%R]));
                   ("example_ids", PTensor (TStrs ["a"]));
                   ("sparse_features", PList []);
                   ("dense_features", PList [])] in
  SDCAModel_init examples vars_one (opts_loss "squared_loss" 1 0) = Err TypeError.
Proof.
  intros examples. apply init_none_example_labels.
  - vm_compute. reflexivity.
  - vm_compute. reflexivity.
  - vm_compute. reflexivity.
Defined.

(** X10: [predictions], [unregularized_loss] and [regularized_loss] raise
    TypeError, not ValueError, when [example_weights] is None (and, for the
    losses, [example_labels] is present and not None). *)
Theorem none_example_weights_type_error (m : model) (ex : pydict) (v : pyval) :
  getitem ex "example_labels" = Ok v -> v <> PNone ->
  getitem ex "example_weights" = Ok PNone ->
  predictions m ex = Err TypeError /\
  unregularized_loss m ex = Err TypeError /\
  regularized_loss m ex = Err TypeError.
Proof.
  intros Hl Hn Hw.
  unfold predictions, unregularized_loss, regularized_loss.
  cbn [_assert_specified]. rewrite Hl, Hw. cbn [bind].
  destruct v; try congruence; repeat split.
Qed.

Lemma none_example_weights_type_error_witness :
  let m := model_of ex_one vars_one (opts_loss "squared_loss" 1 0) in
  let ex := [("example_labels", PTensor (TVec [1%R]));
             ("example_weights", PNone);
             ("example_ids", PTensor (TStrs ["a"]));
             ("sparse_features", PList []);
             ("dense_features", PList [])] in
  predictions m ex = Err TypeError /\
  unregularized_loss m ex = Err TypeError /\
  regularized_loss m ex = Err TypeError.
Proof.
  intros m ex. apply (none_example_weights_type_error m ex (PTensor (TVec [1%R]))).
  - vm_compute. reflexivity.
  - discriminate.
  - vm_compute. reflexivity.
Defined.

(** X11: the constructor never returns a model without weight partitions:
    once its checks pass and its entries decode, no sparse and no dense
    weight variable (or only empty lists of partitions) makes the
    [approximate_duality_gap] summary call [add_n] on an empty list, which
    raises ValueError. *)
Theorem init_has_weights (examples variables options : pydict) :
  (forall m, SDCAModel_init examples variables options = Ok m ->
     all_partitions m <> []) /\
  (forall (lt : string) (l1 l2 : Q) (svs dvs : list pyval) (sws dws : list wvar),
     init_checks examples variables options = Ok tt ->
     getitem options "loss_type" = Ok (PStr lt) ->
     getitem options "symmetric_l1_regularization" = Ok (PNum l1) ->
     getitem options "symmetric_l2_regularization" = Ok (PNum l2) ->
     getitem variables "sparse_features_weights" = Ok (PList svs) ->
     mapM decode_var svs = Ok sws ->
     getitem variables "dense_features_weights" = Ok (PList dvs) ->
     mapM decode_var dvs = Ok dws ->
     flat_map _var_to_list (app sws dws) = [] ->
     SDCAModel_init examples variables options = Err ValueError).
Proof.
  split.
  - intros m H. apply (SDCAModel_init_table _ _ _ _ H).
  - intros lt l1 l2 svs dvs sws dws Hc Hlt H1 H2 Hs Hsw Hd Hdw Hp.
    unfold SDCAModel_init. rewrite Hc, Hlt, H1, H2, Hs. cbn [bind as_str as_num as_list].
    rewrite Hsw. cbn [bind]. rewrite Hd. cbn [bind as_list]. rewrite Hdw.
    cbn [bind]. unfold approximate_duality_gap. cbn zeta.
    destruct (fold_right ds_add _ _) as [[[? ?] ?] ?].
    unfold _l1_loss, all_partitions. cbn [m_sparse_w m_dense_w].
    rewrite Hp. reflexivity.
Qed.

Lemma init_has_weights_witness :
  all_partitions (model_of ex_one vars_one (opts_loss "squared_loss" 1 0)) <> [] /\
  SDCAModel_init ex_one
    [("sparse_features_weights", PList []); ("dense_features_weights", PList [])]
    (opts_loss "squared_loss" 1 0) = Err ValueError.
Proof.
  split.
  - apply (proj1 (init_has_weights ex_one vars_one (opts_loss "squared_loss" 1 0))).
    vm_compute. reflexivity.
  - apply (proj2 (init_has_weights ex_one
             [("sparse_features_weights", PList []);
              ("dense_features_weights", PList [])]
             (opts_loss "squared_loss" 1 0))
             "squared_loss" 0 1 [] [] [] []);
      vm_compute; reflexivity.
Defined.

(** ** Bounds of the losses *)

Lemma Rdiv_nonneg (a b : R) : (0 <= a)%R -> (0 < b)%R -> (0 <= a / b)%R.
Proof.
  intros Ha Hb. unfold Rdiv. apply Rmult_le_pos; [exact Ha|].
  left. apply Rinv_0_lt_compat. exact Hb.
Qed.

Lemma add_n_ok (xs : list R) (s : R) : add_n xs = Ok s -> s = reduce_sum xs.
Proof.
  destruct xs as [|x xs]; simpl; intros H; [discriminate|].
  inversion H. rewrite fold_left_Rplus. reflexivity.
Qed.

Lemma l1_loss_nonneg (m : model) (a : R) :
  (0 <= m_l1 m)%Q -> _l1_loss m = Ok a -> (0 <= a)%R.
Proof.
  unfold _l1_loss. intros Hq H. inv_bind H. inversion H; subst.
  apply add_n_ok in E. subst. apply Rmult_le_pos; [apply Q2R_nonneg; exact Hq|].
  apply reduce_sum_nonneg. intros x Hx. apply in_map_iff in Hx.
  destruct Hx as [w [<- _]]. apply reduce_sum_nonneg. intros y Hy.
  apply in_map_iff in Hy. destruct Hy as [z [<- _]]. apply Rabs_pos.
Qed.

Lemma l2_loss_nonneg (m : model) (a : R) :
  (0 <= m_l2 m)%Q -> _l2_loss m = Ok a -> (0 <= a)%R.
Proof.
  unfold _l2_loss. intros Hq H. inv_bind H. inversion H; subst.
  apply add_n_ok in E. subst. apply Rdiv_nonneg; [|lra].
  apply Rmult_le_pos; [apply Q2R_nonneg; exact Hq|].
  apply reduce_sum_nonneg. intros x Hx. apply in_map_iff in Hx.
  destruct Hx as [w [<- _]]. apply reduce_sum_nonneg. intros y Hy.
  apply in_map_iff in Hy. destruct Hy as [z [<- _]]. apply Rle_0_sqr.
Qed.

(** X12: with non-negative regularization strengths and a positive sum of
    example weights, [regularized_loss] is at least [unregularized_loss]
    on the same examples. *)
Theorem regularized_loss_ge_unregularized (m : model) (ex : pydict) (u r : R) :
  (0 <= m_l1 m)%Q -> (0 <= m_l2 m)%Q ->
  unregularized_loss m ex = Ok u -> regularized_loss m ex = Ok r ->
  exists weights,
    getitem ex "example_weights" = Ok (PTensor (TVec weights)) /\
    (0 < reduce_sum weights -> u <= r)%R.
Proof.
  intros H1 H2 Hu Hr. unfold regularized_loss in Hr. repeat inv_bind Hr.
  inversion Hr; subst r. clear Hr.
  match goal with Hw : as_vec _ = Ok _ |- _ => apply as_vec_ok in Hw end.
  subst. eexists. split; [reflexivity|]. intros Hp.
  inversion Hu; subst.
  match goal with
  | Ha : _l1_loss m = Ok ?a, Hb : _l2_loss m = Ok ?b |- _ =>
      pose proof (l1_loss_nonneg m a H1 Ha);
      pose proof (l2_loss_nonneg m b H2 Hb)
  end.
  match goal with |- (_ <= (?a + ?b) / ?w + _)%R =>
    assert (0 <= (a + b) / w)%R by (apply Rdiv_nonneg; lra) end.
  lra.
Qed.

Lemma regularized_loss_ge_unregularized_witness :
  let m := model_of (ex_sparse (Some [1%R])) vars_one
             (opts_loss "squared_loss" 1 1) in
  let ex := ex_sparse (Some [1%R]) in
  exists weights,
    getitem ex "example_weights" = Ok (PTensor (TVec weights)) /\
    (0 < reduce_sum weights ->
     ok_or 0 (unregularized_loss m ex) <= ok_or 0 (regularized_loss m ex))%R.
Proof.
  intros m ex.
  apply (regularized_loss_ge_unregularized m ex
           (ok_or 0%R (unregularized_loss m ex)) (ok_or 0%R (regularized_loss m ex))).
  - vm_compute. discriminate.
  - vm_compute. discriminate.
  - vm_compute. reflexivity.
  - vm_compute. reflexivity.
Defined.

Ltac elem_of_binop Hz :=
  match type of Hz with
  | In ?z ?c =>
      match goal with
      | Hb : tf_binop _ _ _ = Ok c |- _ =>
          let x := fresh "x" in let y := fresh "y" in
          let Hx := fresh "Hx" in let Hy := fresh "Hy" in
          destruct (tf_binop_in _ _ _ _ Hb z Hz) as (x & y & Hx & Hy & ->)
      end
  end.

(** X13: for every loss type but poisson_loss, [unregularized_loss] is
    non-negative when the example weights are non-negative with a positive
    sum and the labels lie in [0, 1]. *)
Theorem unregularized_loss_nonneg (m : model) (ex : pydict) (u : R) :
  m_loss_type m <> "poisson_loss" ->
  unregularized_loss m ex = Ok u ->
  exists labels weights,
    getitem ex "example_labels" = Ok (PTensor (TVec labels)) /\
    getitem ex "example_weights" = Ok (PTensor (TVec weights)) /\
    ((forall w, In w weights -> 0 <= w) -> 0 < reduce_sum weights ->
     (forall y, In y labels -> 0 <= y <= 1) -> 0 <= u)%R.
Proof.
  intros Hp H. unfold unregularized_loss in H.
  do 7 inv_bind H.
  repeat match goal with Hv : as_vec _ = Ok _ |- _ => apply as_vec_ok in Hv end.
  subst. do 2 eexists. split; [reflexivity|]. split; [reflexivity|].
  intros Hw Hpos Hy.
  destruct (String.eqb (m_loss_type m) "logistic_loss") eqn:El.
  - repeat inv_bind H. inversion H; subst. apply Rdiv_nonneg; [|exact Hpos].
    apply reduce_sum_nonneg. intros z Hz. elem_of_binop Hz.
    elem_of_binop Hx.
    apply Rmult_le_pos; [|apply Hw; assumption].
    apply sigmoid_cross_entropy_nonneg. apply Hy. assumption.
  - destruct (String.eqb (m_loss_type m) "poisson_loss") eqn:Ep.
    + apply String.eqb_eq in Ep. contradiction.
    + destruct (String.eqb (m_loss_type m) "hinge_loss" ||
                String.eqb (m_loss_type m) "smooth_hinge_loss").
      * repeat inv_bind H. inversion H; subst. apply Rdiv_nonneg; [|exact Hpos].
        apply reduce_sum_nonneg. intros z Hz. elem_of_binop Hz.
        apply Rmult_le_pos; [|apply Hw; assumption].
        apply in_map_iff in Hx. destruct Hx as [e [<- _]]. apply Rmax_l.
      * repeat inv_bind H. inversion H; subst. apply Rdiv_nonneg; [|lra].
        apply reduce_sum_nonneg. intros z Hz. elem_of_binop Hz.
        apply Rmult_le_pos; [|apply Hw; assumption].
        apply in_map_iff in Hx. destruct Hx as [e [<- _]]. apply Rle_0_sqr.
Qed.

Lemma unregularized_loss_nonneg_witness :
  let m := model_of (ex_sparse (Some [1%R])) vars_one
             (opts_loss "hinge_loss" 1 1) in
  let ex := ex_sparse (Some [1%R]) in
  exists labels weights,
    getitem ex "example_labels" = Ok (PTensor (TVec labels)) /\
    getitem ex "example_weights" = Ok (PTensor (TVec weights)) /\
    ((forall w, In w weights -> 0 <= w) -> 0 < reduce_sum weights ->
     (forall y, In y labels -> 0 <= y <= 1) ->
     0 <= ok_or 0 (unregularized_loss m ex))%R.
Proof.
  intros m ex.
  apply (unregularized_loss_nonneg m ex (ok_or 0%R (unregularized_loss m ex))).
  - vm_compute. discriminate.
  - vm_compute. reflexivity.
Defined.

(** ** Helpers: the linear predictions *)

Lemma nth_map_in {A B : Type} (f : A -> B) (l : list A) (d : B) (da : A)
    (n : nat) :
  (n < List.length l)%nat -> nth n (map f l) d = f (nth n l da).
Proof.
  intros H. rewrite (nth_indep _ d (f da)) by (rewrite length_map; exact H).
  apply map_nth.
Qed.

Lemma binop_seq (f : R -> R -> R) (P : nat -> R) (v : list R) (b : nat) :
  List.length v = b ->
  tf_binop f (map P (seq 0 b)) v =
    Ok (map (fun e => f (P e) (nth e v 0%R)) (seq 0 b)).
Proof.
  intros Hl. unfold tf_binop. rewrite length_map, length_seq, Hl, Nat.eqb_refl.
  f_equal. apply nth_ext with (d := 0%R) (d' := 0%R).
  - rewrite !length_map, length_combine, length_map, length_seq. lia.
  - intros e He.
    rewrite length_map, length_combine, length_map, length_seq in He.
    rewrite (nth_map_in _ _ _ (0%R, 0%R))
      by (rewrite length_combine, length_map, length_seq; lia).
    rewrite combine_nth by (rewrite length_map, length_seq; lia).
    rewrite (nth_map_in _ (seq 0 b) _ O) by (rewrite length_seq; lia).
    rewrite (nth_map_in _ (seq 0 b) _ O) by (rewrite length_seq; lia).
    rewrite seq_nth by lia. reflexivity.
Qed.

Lemma last_indep (a : Z) (l : list Z) (d d' : Z) :
  last (a :: l) d = last (a :: l) d'.
Proof.
  revert a. induction l as [|b l IH]; intros a; [reflexivity|].
  change (last (b :: l) d = last (b :: l) d'). apply IH.
Qed.

Lemma sorted_from_bounds (p : Z) (l : list Z) :
  sorted_from p l = true -> forall x, In x l -> (p <= x /\ x <= last l p)%Z.
Proof.
  revert p. induction l as [|i r IH]; intros p H x Hx; [destruct Hx|].
  simpl in H. apply andb_prop in H. destruct H as [Hp Hr].
  apply Z.leb_le in Hp.
  destruct r as [|j r'].
  - destruct Hx as [<-|[]]. simpl. lia.
  - change (last (i :: j :: r') p) with (last (j :: r') p).
    rewrite (last_indep j r' p i).
    pose proof (IH i Hr) as IHi.
    destruct (IHi j (or_introl eq_refl)) as [Hij Hj].
    destruct Hx as [<-|Hx]; [lia|].
    destruct (IHi x Hx). lia.
Qed.

Lemma last_in (l : list Z) (d : Z) : l <> [] -> In (last l d) l.
Proof.
  intros H. rewrite (@app_removelast_last Z l d H) at 2.
  apply in_or_app. right. left. reflexivity.
Qed.

Lemma reduce_sum_zero {A : Type} (f : A -> R) (l : list A) :
  (forall x, In x l -> f x = 0%R) -> reduce_sum (map f l) = 0%R.
Proof.
  induction l as [|x l IH]; intros H; simpl; [reflexivity|].
  rewrite H by (left; reflexivity). rewrite IH by (intros y Hy; apply H; right; exact Hy).
  ring.
Qed.

Lemma segment_filter_sum (x : list R) (ids : list Z) (k : Z) :
  List.length x = List.length ids ->
  reduce_sum (map fst (filter (fun p => Z.eqb (snd p) k) (combine x ids))) =
  reduce_sum (map (fun j => if Z.eqb (nth j ids 0%Z) k then nth j x 0%R else 0%R)
                  (seq 0 (List.length ids))).
Proof.
  revert ids. induction x as [|a x IH]; intros [|i ids] Hl; simpl in Hl;
    try discriminate; [reflexivity|].
  specialize (IH ids ltac:(lia)).
  change (seq O (List.length (i :: ids))) with (O :: seq (S O) (List.length ids)).
  rewrite <- seq_shift. cbn [map]. rewrite map_map. unfold reduce_sum in *.
  cbn [combine filter map fst snd nth fold_right].
  destruct (Z.eqb i k); cbn [map fst fold_right]; rewrite IH; ring.
Qed.

Lemma mult_nth (a b : list R) (j : nat) :
  List.length a = List.length b -> (j < List.length a)%nat ->
  nth j (map (fun p => (fst p * snd p)%R) (combine a b)) 0%R =
  (nth j a 0 * nth j b 0)%R.
Proof.
  intros Hl Hj.
  rewrite (nth_map_in _ _ _ (0%R, 0%R)) by (rewrite length_combine; lia).
  rewrite combine_nth by exact Hl. reflexivity.
Qed.

(** One sparse feature column adds its [column_pred] to every example. *)
Lemma sparse_dot_ok (batch : nat) (P : nat -> R) (c : SparseFeatureColumn)
    (sv : list R) :
  column_ok batch c sv ->
  sparse_dot batch (map P (seq 0 batch)) (PSfc c, sv) =
    Ok (map (fun e => P e + column_pred c sv e)%R (seq 0 batch)).
Proof.
  intros (fv & Hfv & Hli & Hlv & Hs & Hei & Hfi).
  unfold column_pred. cbn [sparse_dot as_sfc bind]. rewrite Hfv.
  pose proof (gather_ok sv (fun i : Z => i) (feature_indices c) 0%R Hfi) as Hg.
  rewrite map_id in Hg. rewrite Hg. cbn [bind].
  set (g := map (fun i => nth (Z.to_nat i) sv 0%R) (feature_indices c)) in *.
  assert (Hgl : List.length g = List.length (example_indices c))
    by (unfold g; rewrite length_map; exact Hli).
  set (ei := example_indices c) in *.
  unfold tf_binop at 1. rewrite Hgl, Hlv, Nat.eqb_refl. cbn [bind].
  set (x := map (fun p => (fst p * snd p)%R) (combine g fv)).
  assert (Hxl : List.length x = List.length ei)
    by (unfold x; rewrite length_map, length_combine; lia).
  unfold segment_sum. rewrite Hxl, Nat.eqb_refl, Hs. cbn [andb bind].
  set (n := match ei with [] => O | _ => S (Z.to_nat (last ei 0%Z)) end).
  assert (Hn : (n <= batch)%nat /\
               forall j, (j < List.length ei)%nat -> (Z.to_nat (nth j ei 0%Z) < n)%nat /\
                         (0 <= nth j ei 0%Z)%Z).
  { unfold n. destruct ei as [|i0 ei'] eqn:Eei.
    - split; [lia|]. intros j Hj. simpl in Hj. lia.
    - assert (Hin : In (last (i0 :: ei') 0%Z) (i0 :: ei'))
        by (apply last_in; discriminate).
      pose proof (Hei _ Hin) as Hlast.
      pose proof (sorted_from_bounds _ _ Hs (last (i0 :: ei') 0%Z) Hin) as [H0 _].
      split; [lia|]. intros j Hj.
      pose proof (sorted_from_bounds _ _ Hs (nth j (i0 :: ei') 0%Z)
                    (nth_In _ _ Hj)) as [Hj0 Hj1].
      lia. }
  destruct Hn as [Hnb Hnj].
  unfold pad_to. rewrite length_map, length_seq.
  replace (Nat.leb n batch) with true by (symmetry; apply Nat.leb_le; exact Hnb).
  cbn [bind].
  rewrite binop_seq by (rewrite length_app, length_map, length_seq, repeat_length; lia).
  f_equal. apply map_ext_in. intros e He. apply in_seq in He. f_equal.
  unfold column_dot. fold ei.
  destruct (Nat.lt_ge_cases e n) as [Hen|Hen].
  - rewrite app_nth1 by (rewrite length_map, length_seq; exact Hen).
    rewrite (nth_map_in _ _ _ O) by (rewrite length_seq; exact Hen).
    rewrite seq_nth by exact Hen. cbn [Nat.add].
    rewrite segment_filter_sum by exact Hxl.
    f_equal. apply map_ext_in. intros j Hj. apply in_seq in Hj.
    destruct (Z.eqb _ _); [|reflexivity].
    unfold x. rewrite mult_nth by lia.
    unfold g. rewrite (nth_map_in _ _ _ 0%Z) by lia. reflexivity.
  - rewrite app_nth2 by (rewrite length_map, length_seq; exact Hen).
    rewrite nth_repeat. symmetry. apply reduce_sum_zero.
    intros j Hj. apply in_seq in Hj. destruct (Hnj j ltac:(lia)) as [H1 H2].
    replace (Z.eqb (nth j ei 0%Z) (Z.of_nat e)) with false
      by (symmetry; apply Z.eqb_neq; lia).
    reflexivity.
Qed.

Lemma combine_map_l {A A' B : Type} (f : A -> A') (l1 : list A) (l2 : list B) :
  combine (map f l1) l2 = map (fun p => (f (fst p), snd p)) (combine l1 l2).
Proof.
  revert l2. induction l1 as [|a l1 IH]; intros [|b l2]; simpl;
    try reflexivity. rewrite IH. reflexivity.
Qed.

Lemma sparse_fold_ok (batch : nat) (cps : list (SparseFeatureColumn * list R))
    (P : nat -> R) :
  (forall p, In p cps -> column_ok batch (fst p) (snd p)) ->
  foldM (sparse_dot batch) (map (fun p => (PSfc (fst p), snd p)) cps)
        (map P (seq 0 batch)) =
    Ok (map (fun e => P e + reduce_sum (map (fun p => column_pred (fst p) (snd p) e) cps))%R
            (seq 0 batch)).
Proof.
  revert P. induction cps as [|[c sv] cps IH]; intros P H; cbn [map foldM fst snd].
  - f_equal. apply map_ext. intros e. cbn [reduce_sum fold_right]. ring.
  - rewrite (sparse_dot_ok batch P c sv) by (apply (H (c, sv)); left; reflexivity).
    cbn [bind].
    rewrite (IH (fun e => P e + column_pred c sv e)%R)
      by (intros p Hp; apply H; right; exact Hp).
    f_equal. apply map_ext. intros e. unfold reduce_sum. cbn [fold_right fst snd map]. ring.
Qed.

Lemma dense_fold_ok (dense : list (list (list R))) (dvars : list (list R))
    (batch n k : nat) (P : nat -> R) :
  (forall i, (k <= i < k + n)%nat ->
     exists df, nth_error dense i = Some df /\ dense_ok batch df (nth i dvars [])) ->
  foldM (fun predictions i =>
           df <- nth_res dense i ;;
           mv <- matvec df (nth i dvars []) ;;
           tf_binop Rplus predictions mv)
        (seq k n) (map P (seq 0 batch)) =
    Ok (map (fun e => P e + reduce_sum (map (fun i => dot (nth e (nth i dense []) [])
                                                        (nth i dvars []))
                                          (seq k n)))%R
            (seq 0 batch)).
Proof.
  revert k P. induction n as [|n IH]; intros k P H; cbn [seq foldM].
  - f_equal. apply map_ext. intros e. cbn [map reduce_sum fold_right]. ring.
  - destruct (H k) as (df & Hdf & Hl & Hr); [lia|].
    unfold nth_res at 1. rewrite Hdf. cbn [bind].
    unfold matvec at 1.
    replace (forallb _ df) with true
      by (symmetry; apply forallb_forall; intros r Hr'; apply Nat.eqb_eq, Hr, Hr').
    cbn [bind].
    rewrite binop_seq by (rewrite length_map; exact Hl). cbn [bind].
    rewrite IH by (intros i Hi; apply H; lia).
    f_equal. apply map_ext_in. intros e He. apply in_seq in He.
    rewrite (nth_map_in _ _ _ []) by lia.
    unfold reduce_sum. cbn [map fold_right]. rewrite (nth_error_nth dense k [] Hdf).
    ring.
Qed.

(** X14: when the batch's columns and dense matrices fit the weights,
    [_linear_predictions] gives every example [e] of the batch the sum of
    its sparse dot products, one per column paired with a sparse weight
    variable, and of its dense dot products, one per dense weight
    variable. *)
Theorem linear_predictions_formula (m : model) (ex : pydict)
    (ids : list string) (cols : list SparseFeatureColumn)
    (dfl : list pyval) (dense : list (list (list R))) :
  getitem ex "example_ids" = Ok (PTensor (TStrs ids)) ->
  getitem ex "sparse_features" = Ok (PList (map PSfc cols)) ->
  getitem ex "dense_features" = Ok (PList dfl) ->
  mapM as_mat dfl = Ok dense ->
  (forall p, In p (combine cols (map concat_var (m_sparse_w m))) ->
     column_ok (List.length ids) (fst p) (snd p)) ->
  (forall i, (i < List.length (m_dense_w m))%nat ->
     exists df, nth_error dense i = Some df /\
       dense_ok (List.length ids) df (nth i (map concat_var (m_dense_w m)) [])) ->
  _linear_predictions m ex =
    Ok (map (fun e => sparse_pred cols (map concat_var (m_sparse_w m)) e +
                      dense_pred dense (map concat_var (m_dense_w m)) e)%R
            (seq 0 (List.length ids))).
Proof.
  intros Hid Hsf Hdf Hdm Hcols Hdense.
  unfold _linear_predictions. rewrite Hid. cbn [bind as_strs].
  rewrite Hsf. cbn [bind as_list]. rewrite combine_map_l.
  replace (repeat 0%R (List.length ids))
    with (map (fun _ : nat => 0%R) (seq 0 (List.length ids)))
    by (rewrite map_const, length_seq; reflexivity).
  rewrite (sparse_fold_ok (List.length ids) _ (fun _ => 0%R) Hcols).
  cbn [bind]. rewrite Hdf. cbn [bind as_list]. rewrite Hdm. cbn [bind].
  rewrite (dense_fold_ok dense (map concat_var (m_dense_w m)) (List.length ids)
             (List.length (map concat_var (m_dense_w m))) 0)
    by (intros i Hi; apply Hdense; rewrite length_map in Hi; lia).
  f_equal. apply map_ext. intros e. unfold sparse_pred, dense_pred. ring.
Qed.

Lemma linear_predictions_formula_witness :
  let m := model_of (ex_sparse (Some [1%R])) vars_one
             (opts_loss "squared_loss" 1 0) in
  let cols := [mkSparseFeatureColumn [0%Z] [1%Z] (Some [1%R])] in
  _linear_predictions m (ex_sparse (Some [1%R])) =
    Ok (map (fun e => sparse_pred cols (map concat_var (m_sparse_w m)) e +
                      dense_pred [] (map concat_var (m_dense_w m)) e)%R
            (seq 0 1)).
Proof.
  intros m cols.
  apply (linear_predictions_formula m (ex_sparse (Some [1%R])) ["a"] cols [] []).
  - reflexivity.
  - reflexivity.
  - reflexivity.
  - reflexivity.
  - replace (map concat_var (m_sparse_w m)) with [[0%R; 1%R]]
      by (vm_compute; reflexivity).
    intros p [<- | []]. exists [1%R]. cbn.
    repeat split; try reflexivity.
    all: intros; repeat match goal with H : _ \/ False |- _ => destruct H as [<- | []] end;
      cbn; lia.
  - replace (m_dense_w m) with (@nil wvar) by (vm_compute; reflexivity).
    intros i Hi. cbn in Hi. lia.
Defined.

(** X15: the div routing of [minimize] raises on its edge inputs: a sparse
    weight variable given as an empty list of partitions raises IndexError
    at [w[0]], and one with more partitions than rows in total (so that
    [ids_per_partition] is 0) raises InvalidArgumentError, an integer
    division by zero, as soon as the batch has a feature id. *)
Theorem div_routing_errors (w : list (list R)) (flat_ids : list Z) :
  (w = [] -> div_routing w flat_ids = Err IndexError) /\
  (w <> [] -> (dim_0_size w < List.length w)%nat -> flat_ids <> [] ->
   div_routing w flat_ids = Err InvalidArgumentError).
Proof.
  split.
  - intros ->. reflexivity.
  - intros Hw Hd Hids. rewrite div_routing_nonempty by exact Hw. cbv zeta.
    replace (Z.of_nat (dim_0_size w) / Z.of_nat (List.length w))%Z with 0%Z
      by (symmetry; apply Z.div_small; lia).
    destruct flat_ids as [|i flat_ids]; [congruence|].
    cbn [mapM bind]. unfold floordiv at 1. cbn [Z.add Z.eqb bind].
    reflexivity.
Qed.

Lemma div_routing_errors_witness :
  div_routing [] [0%Z] = Err IndexError /\
  div_routing [[1%R]; []] [0%Z] = Err InvalidArgumentError.
Proof.
  split.
  - apply (proj1 (div_routing_errors [] [0%Z])). reflexivity.
  - apply (proj2 (div_routing_errors [[1%R]; []] [0%Z])).
    + discriminate.
    + simpl. lia.
    + discriminate.
Defined.

Lemma existsb_eqb_in (x : Z) (l : list Z) :
  existsb (Z.eqb x) l = true <-> In x l.
Proof.
  rewrite existsb_exists. split.
  - intros [y [Hy Heq]]. apply Z.eqb_eq in Heq. subst y. exact Hy.
  - intros Hx. exists x. split; [exact Hx | apply Z.eqb_refl].
Qed.

Lemma unique_from_spec (seen xs : list Z) :
  NoDup (unique_from seen xs) /\
  (forall x, In x (unique_from seen xs) <-> In x xs /\ ~ In x seen).
Proof.
  revert seen. induction xs as [|y xs IH]; intros seen; cbn [unique_from].
  - split; [constructor|]. intros x. simpl. tauto.
  - destruct (existsb (Z.eqb y) seen) eqn:E.
    + apply existsb_eqb_in in E. destruct (IH seen) as [Hnd Hin].
      split; [exact Hnd|]. intros x. rewrite Hin. simpl.
      split; [tauto|]. intros [[<- | Hx] Hs]; [contradiction | tauto].
    + destruct (IH (y :: seen)) as [Hnd Hin]. split.
      * constructor; [|exact Hnd]. rewrite Hin. simpl. tauto.
      * intros x. simpl. rewrite Hin. simpl.
        destruct (Z.eq_dec y x) as [<-|Hne].
        -- split; [|tauto]. intros _. split; [tauto|].
           intros Hs. apply (proj2 (existsb_eqb_in y seen)) in Hs. congruence.
        -- tauto.
Qed.

Lemma mapM_err {A B : Type} (f : A -> res B) (xs : list A) (e : pyexc) :
  (forall x, In x xs -> (exists b, f x = Ok b) \/ f x = Err e) ->
  (exists x, In x xs /\ f x = Err e) ->
  mapM f xs = Err e.
Proof.
  induction xs as [|y xs IH]; intros Hall [x [Hx Hfx]]; [destruct Hx|].
  cbn [mapM]. destruct (Hall y (or_introl eq_refl)) as [[b Hb] | Hb];
    rewrite Hb; cbn [bind]; [|reflexivity].
  destruct Hx as [<- | Hx]; [congruence|].
  rewrite IH; [reflexivity| |].
  - intros z Hz. apply Hall. right. exact Hz.
  - exists x. split; assumption.
Qed.

(** X16: the [sparse_idx] that [minimize] passes to the optimizer for a
    column holds each feature id of the column, cast to int32, exactly
    once: it has no duplicates and the same elements as the cast ids. *)
Theorem sparse_idx_distinct (feature_indices : list Z) :
  NoDup (sparse_idx_of feature_indices) /\
  (forall x, In x (sparse_idx_of feature_indices) <->
             In x (map cast_int32 feature_indices)).
Proof.
  unfold sparse_idx_of, tf_unique.
  destruct (unique_from_spec [] (map cast_int32 feature_indices)) as [Hnd Hin].
  split; [exact Hnd|]. intros x. rewrite Hin. simpl. tauto.
Qed.

(** X17: for a sparse weight variable that is one [Variable], the gather in
    [minimize] succeeds exactly when every cast feature id of the column is
    a row of the variable, and then gathers, for each id of [sparse_idx],
    the weight at that row; any id out of range raises
    InvalidArgumentError. *)
Theorem sparse_gather_whole (wv : list R) (i : list Z) :
  ((forall x, In x (map cast_int32 i) -> (0 <= x < Z.of_nat (List.length wv))%Z) ->
   sparse_gather (Whole wv) i =
     Ok (mkVarGather (sparse_idx_of i) None
           (map (fun x => Some (nth (Z.to_nat x) wv 0%R)) (sparse_idx_of i)))) /\
  ((exists x, In x (map cast_int32 i) /\
     ~ (0 <= x < Z.of_nat (List.length wv))%Z) ->
   sparse_gather (Whole wv) i = Err InvalidArgumentError).
Proof.
  destruct (sparse_idx_distinct i) as [_ Hin].
  split.
  - intros Hr. unfold sparse_gather. cbv zeta.
    pose proof (gather_ok wv (fun x => x) (sparse_idx_of i) 0%R) as G.
    rewrite map_id in G. rewrite G.
    + cbn [bind]. rewrite map_map. reflexivity.
    + intros x Hx. apply Hin, Hr in Hx. lia.
  - intros [x [Hx Hout]]. unfold sparse_gather, gather.
    rewrite (mapM_err _ _ InvalidArgumentError); [reflexivity| |].
    + intros z _. unfold gather_one.
      destruct (0 <=? z)%Z; [|right; reflexivity].
      destruct (nth_error wv (Z.to_nat z)); [left; eexists; reflexivity|].
      right; reflexivity.
    + exists x. split; [apply Hin; exact Hx|].
      unfold gather_one. destruct (0 <=? x)%Z eqn:E; [|reflexivity].
      apply Z.leb_le in E.
      rewrite (proj2 (nth_error_None wv (Z.to_nat x))) by lia. reflexivity.
Qed.

Lemma sparse_gather_whole_witness :
  sparse_gather (Whole [1%R; 2%R]) [1%Z; 1%Z] =
    Ok (mkVarGather (sparse_idx_of [1%Z; 1%Z]) None
          (map (fun x => Some (nth (Z.to_nat x) [1%R; 2%R] 0%R))
               (sparse_idx_of [1%Z; 1%Z]))) /\
  sparse_gather (Whole [1%R; 2%R]) [2%Z] = Err InvalidArgumentError.
Proof.
  split.
  - apply (proj1 (sparse_gather_whole [1%R; 2%R] [1%Z; 1%Z])).
    intros x Hx. vm_compute in Hx.
    destruct Hx as [<- | [<- | []]]; simpl; lia.
  - apply (proj2 (sparse_gather_whole [1%R; 2%R] [2%Z])).
    exists 2%Z. split; [vm_compute; left; reflexivity|]. simpl. lia.
Defined.

Lemma length_concat_dim (w : list (list R)) :
  List.length (List.concat w) = dim_0_size w.
Proof.
  induction w as [|x w IH]; simpl; [reflexivity|].
  rewrite length_app, IH. reflexivity.
Qed.

Lemma dim_0_size_lengths (a b : list (list R)) :
  map (@List.length R) b = map (@List.length R) a -> dim_0_size b = dim_0_size a.
Proof.
  revert b. induction a as [|x a IH]; intros [|y b] H; simpl in H;
    try discriminate; [reflexivity|].
  injection H as Hxy Hab. simpl. rewrite Hxy, (IH b Hab). reflexivity.
Qed.

Lemma scatter_sum_route (q rt : Z -> Z) (ids : list Z) (u : list R)
    (p rr k : nat) :
  List.length ids = List.length u ->
  (forall i, In i ids ->
     (q i = Z.of_nat p /\ rt i = Z.of_nat rr) <-> i = Z.of_nat k) ->
  scatter_sum (map rt (filter (fun i => Z.eqb (q i) (Z.of_nat p)) ids))
              (partition_of u (map q ids) p) rr =
  scatter_sum ids u k.
Proof.
  revert u. induction ids as [|i ids IH]; intros [|x u] Hl Hiff;
    simpl in Hl; try discriminate; [reflexivity|].
  pose proof (IH u ltac:(lia) (fun j Hj => Hiff j (or_intror Hj))) as IH'.
  pose proof (Hiff i (or_introl eq_refl)) as Hi.
  unfold scatter_sum, partition_of in *.
  cbn [map combine filter fst snd].
  destruct (Z.eqb (q i) (Z.of_nat p)) eqn:Eq; cbn [map combine filter fst snd].
  - apply Z.eqb_eq in Eq.
    destruct (Z.eqb (rt i) (Z.of_nat rr)) eqn:Er;
      destruct (Z.eqb i (Z.of_nat k)) eqn:Ek.
    + unfold reduce_sum in *. cbn [map fold_right snd]. rewrite IH'. reflexivity.
    + apply Z.eqb_eq in Er. apply Z.eqb_neq in Ek. tauto.
    + apply Z.eqb_neq in Er. apply Z.eqb_eq in Ek. tauto.
    + exact IH'.
  - destruct (Z.eqb i (Z.of_nat k)) eqn:Ek; [|exact IH'].
    apply Z.eqb_eq in Ek. apply Z.eqb_neq in Eq. tauto.
Qed.

(** X18: under div layout, the partitioned sparse update of [minimize]
    ([div_routing], then [_get_partitioned_update_ops]: dynamic_partition of
    the delta and scatter_add into each partition) keeps every partition's
    size and changes the concatenated variable exactly as one scatter_add
    of the delta at the ids would: row [k] gains the sum of the updates
    whose id is [k]. *)
Theorem div_partitioned_scatter_add (w : list (list R)) (ids : list Z)
    (u : list R) (r : routing) (w' : list (list R)) :
  (1 <= List.length w)%nat ->
  (List.length w <= dim_0_size w)%nat ->
  (Z.of_nat (List.length w) <= 2 ^ 31)%Z ->
  div_layout w ->
  (forall i, In i ids -> (0 <= i < Z.of_nat (dim_0_size w))%Z) ->
  div_routing w ids = Ok r ->
  partitioned_scatter_add w r u = Ok w' ->
  map (@List.length R) w' = map (@List.length R) w /\
  added (List.concat w) (List.concat w') ids u.
Proof.
  intros HP HPn HP32 Hlay Hids Hr Hs.
  pose proof (div_routing_result w ids HP HPn HP32 Hlay Hids) as Hres.
  cbv zeta in Hres.
  set (q := route_partition (ids_per_partition_of w) (extras_of w)) in *.
  set (rt := route_row (ids_per_partition_of w) (extras_of w)) in *.
  rewrite Hres in Hr. injection Hr as <-.
  assert (Hlu : List.length u = List.length ids).
  { unfold partitioned_scatter_add, dynamic_partition in Hs.
    cbn [p_assignments num_partitions] in Hs.
    destruct (Nat.eqb (List.length u) (List.length (map q ids))) eqn:E;
      cbn [andb bind] in Hs; [|discriminate Hs].
    apply Nat.eqb_eq in E. rewrite length_map in E. exact E. }
  pose proof Hs as Hs'.
  apply partitioned_scatter_add_spec in Hs';
    [| reflexivity | cbn [gather_ids]; rewrite length_map, length_seq; reflexivity].
  destruct Hs' as [Hlw Hp].
  cbn [gather_ids p_assignments] in Hp.
  assert (Hml : map (@List.length R) w' = map (@List.length R) w).
  { apply nth_ext with (d := O) (d' := O); rewrite ?length_map; [exact Hlw|].
    intros p Hpl. rewrite (nth_map_in _ _ _ []) by lia.
    rewrite (nth_map_in _ _ _ []) by lia.
    destruct (Hp p ltac:(lia)) as [Hl _]. exact Hl. }
  split; [exact Hml|].
  split.
  { rewrite !length_concat_dim. apply dim_0_size_lengths. exact Hml. }
  intros k Hk. rewrite length_concat_dim in Hk.
  pose proof (route_facts w HP HPn Hlay (Z.of_nat k) ltac:(lia)) as F.
  cbv zeta in F. fold (q (Z.of_nat k)) (rt (Z.of_nat k)) in F.
  destruct F as (Hq & Hr0 & Hrs & Hk'). rewrite Nat2Z.id in Hk'.
  set (p := Z.to_nat (q (Z.of_nat k))) in *.
  set (rr := Z.to_nat (rt (Z.of_nat k))) in *.
  destruct (Hp p ltac:(lia)) as [Hlp Hadd].
  rewrite nth_map_seq in Hadd by lia.
  assert (Hoff : dim_0_size (firstn p w') = dim_0_size (firstn p w)).
  { apply dim_0_size_lengths. rewrite <- !firstn_map, Hml. reflexivity. }
  assert (E1 : nth k (List.concat w) 0%R = nth rr (nth p w []) 0%R).
  { pose proof (nth_error_concat_firstn w p rr ltac:(lia) Hrs) as X.
    rewrite <- Hk' in X.
    rewrite (nth_error_nth' (List.concat w) 0%R) in X
      by (rewrite length_concat_dim; lia).
    rewrite (nth_error_nth' (nth p w []) 0%R) in X by lia.
    injection X as X. exact X. }
  assert (E2 : nth k (List.concat w') 0%R = nth rr (nth p w' []) 0%R).
  { pose proof (nth_error_concat_firstn w' p rr ltac:(lia) ltac:(lia)) as X.
    rewrite Hoff, <- Hk' in X.
    rewrite (nth_error_nth' (List.concat w') 0%R) in X
      by (rewrite length_concat_dim, (dim_0_size_lengths w w' Hml); lia).
    rewrite (nth_error_nth' (nth p w' []) 0%R) in X by lia.
    injection X as X. exact X. }
  rewrite E1, E2, (Hadd rr Hrs). f_equal.
  apply scatter_sum_route; [lia|].
  intros i Hi. split.
  - intros [Hqi Hri].
    pose proof (route_facts w HP HPn Hlay i (Hids i Hi)) as G.
    cbv zeta in G. fold (q i) (rt i) in G.
    destruct G as (_ & _ & _ & Hi').
    rewrite Hqi, Hri, !Nat2Z.id in Hi'.
    pose proof (Hids i Hi). lia.
  - intros ->. unfold p, rr. rewrite !Z2Nat.id by lia. split; reflexivity.
Qed.

Lemma div_partitioned_scatter_add_witness :
  let w := [[10; 11; 12]; [13; 14]]%R in
  let ids := [4%Z; 0%Z; 4%Z] in
  let u := [1; 2; 3]%R in
  let r := ok_or (mkRouting O [] [] []) (div_routing w ids) in
  let w' := ok_or [] (partitioned_scatter_add w r u) in
  map (@List.length R) w' = map (@List.length R) w /\
  added (List.concat w) (List.concat w') ids u.
Proof.
  intros w ids u r w'.
  apply (div_partitioned_scatter_add w ids u r w').
  - simpl. lia.
  - simpl. lia.
  - simpl. lia.
  - intros q Hq. destruct q as [|[|q]]; [reflexivity | reflexivity |].
    simpl in Hq. lia.
  - intros i Hi. destruct Hi as [<- | [<- | [<- | []]]]; simpl; lia.
  - vm_compute. reflexivity.
  - vm_compute. reflexivity.
Defined.

Lemma assert_list_prefix (pre post : list string) (x : string) (d : pydict) :
  (forall y, In y pre -> exists l, getitem d y = Ok (PList l)) ->
  _assert_list (app pre (x :: post)) d = _assert_list (x :: post) d.
Proof.
  induction pre as [|y pre IH]; intros H; [reflexivity|].
  destruct (H y (or_introl eq_refl)) as [l Hl].
  cbn [app _assert_list]. rewrite Hl. cbn [bind].
  apply IH. intros z Hz. apply H. right. exact Hz.
Qed.

(** X19: [_assert_list] succeeds exactly when every item is present and a
    list, and it never raises TypeError; the first item that is missing or
    not a list decides the error, KeyError for a missing item and
    ValueError for an item that is present but not a list. *)
Theorem assert_list_outcomes (items : list string) (d : pydict) :
  ((_assert_list items d = Ok tt <->
      forall x, In x items -> exists l, getitem d x = Ok (PList l)) /\
   (_assert_list items d = Err ValueError ->
      exists x v, In x items /\ getitem d x = Ok v /\
                  forall l, v <> PList l) /\
   _assert_list items d <> Err TypeError) /\
  (forall (pre : list string) (x : string) (post : list string),
     items = app pre (x :: post) ->
     (forall y, In y pre -> exists l, getitem d y = Ok (PList l)) ->
     (getitem d x = Err KeyError -> _assert_list items d = Err KeyError) /\
     (forall v, getitem d x = Ok v -> (forall l, v <> PList l) ->
        _assert_list items d = Err ValueError)).
Proof.
  split.
  { induction items as [|x xs IH]; simpl.
    - split; [split; [intros _ y [] | intros _; reflexivity]|].
      split; discriminate.
    - destruct IH as (I1 & I2 & I3).
      destruct (getitem_result d x) as [Hk | [v Hv]].
      + rewrite Hk. cbn [bind]. split; [split|split]; try discriminate.
        intros H. destruct (H x (or_introl eq_refl)) as [l Hl]. congruence.
      + rewrite Hv. cbn [bind].
        destruct v as [| | | l | | | |];
          try (split; [split|split];
               [ discriminate
               | intros H; destruct (H x (or_introl eq_refl)) as [l' Hl'];
                 congruence
               | intros _; exists x; eexists;
                 split; [left; reflexivity | split; [exact Hv | discriminate]]
               | discriminate ]).
        split; [split|split].
        * intros H y [<- | Hy]; [exists l; exact Hv | apply I1; assumption].
        * intros H. apply I1. intros y Hy. apply H. right. exact Hy.
        * intros H. destruct (I2 H) as (y & w & Hy & Hw & Hn).
          exists y, w. split; [right; exact Hy | split; assumption].
        * exact I3. }
  intros pre x post -> Hpre.
  rewrite (assert_list_prefix pre post x d Hpre).
  cbn [_assert_list]. split.
  - intros Hx. rewrite Hx. reflexivity.
  - intros v Hx Hv. rewrite Hx. cbn [bind].
    destruct v; try reflexivity. exfalso. eapply Hv. reflexivity.
Qed.

Lemma assert_list_outcomes_witness :
  _assert_list ["a"; "b"; "c"] [("a", PList []); ("b", PNum 1%Q)]
    = Err ValueError /\
  _assert_list ["a"; "b"; "c"] [("a", PList [])] = Err KeyError.
Proof.
  split.
  - apply (proj2 (proj2 (assert_list_outcomes ["a"; "b"; "c"]
                           [("a", PList []); ("b", PNum 1%Q)])
                   ["a"] "b" ["c"] eq_refl
                   ltac:(intros y [<- | []]; eexists; reflexivity))
                 (PNum 1%Q)).
    + reflexivity.
    + intros l. discriminate.
  - apply (proj1 (proj2 (assert_list_outcomes ["a"; "b"; "c"]
                           [("a", PList [])])
                   ["a"] "b" ["c"] eq_refl
                   ltac:(intros y [<- | []]; eexists; reflexivity))).
    reflexivity.
Defined.
